(** * util/uring/uring_file.cc: file I/O through the io_uring proactor

    A shallow embedding of the file abstractions of helio's
    [util::uring] namespace ([ReadFileImpl], [WriteFileImpl],
    [LinuxFileImpl], the helpers [CloseFile], [ReadSomeInternal],
    [WriteSomeInternal], [ReadAll] and the factories [OpenRead],
    [OpenWrite], [OpenLinux]) and the properties of them that the
    specification states.

    The proactor is not part of the translation unit.  It is modelled
    by what the code observes of it: every [FiberCall] submits one
    operation and [fc.Get()] resumes the fiber with a signed integer
    result.  The environment ([World]) carries the results the engine
    is going to deliver, in order, and records every submitted
    operation together with the result it completed with. *)

From Stdlib Require Import ZArith List Lia Bool String.
Import ListNotations.

Local Open Scope Z_scope.

(** ** Integer types *)

Module Int.

(** [size_t], [uint64_t]: arithmetic modulo 2^64. *)
Definition to_size_t (z : Z) : Z := z mod 2 ^ 64.

(** [ssize_t], [off_t]: 64-bit two's complement. *)
Definition to_ssize_t (z : Z) : Z := (z + 2 ^ 63) mod 2 ^ 64 - 2 ^ 63.
Definition to_off_t (z : Z) : Z := to_ssize_t z.

Definition SSIZE_MAX : Z := 2 ^ 63 - 1.

End Int.
Import Int.

(** ** Results and error codes *)

(** [std::error_code] in [system_category()]: only the value varies.
    [error_code{}] has value 0 and converts to [false]. *)
Record error_code := mk_error_code { ec_value : Z }.

Definition ec_ok : error_code := mk_error_code 0.

Definition ec_bool (ec : error_code) : bool := negb (ec_value ec =? 0).

(** [io::Result<T>] is [nonstd::expected<T, std::error_code>]. *)
Inductive Result (T : Type) :=
| Ok (t : T)
| Unexpected (ec : error_code).
Arguments Ok {T} t.
Arguments Unexpected {T} ec.

(** ** Scatter/gather entries and operations *)

(** [struct iovec]; addresses are integers. *)
Record iovec := mk_iovec { iov_base : Z; iov_len : Z }.

(** [FiberCall::IoResult]: the signed completion result, negative for
    a negated error number. *)
Definition IoResult := Z.

(** The submission entries this file prepares through [fc->Prep...]. *)
Inductive Op :=
| PrepClose (fd : Z)
| PrepWriteV (fd : Z) (iov : list iovec) (offset flags : Z)
| PrepReadV (fd : Z) (iov : list iovec) (offset flags : Z)
| PrepRead (fd : Z) (buf len offset : Z)
| PrepOpenAt (dfd : Z) (path : string) (flags mode : Z)
| PrepFadvise (fd offset len advice : Z).

(** Synchronous system calls made directly, not through the ring. *)
Inductive Syscall :=
| SysFstat (fd : Z)
| SysClose (fd : Z).

(** [ProactorBase::Kind]. *)
Inductive ProactorKind := EPOLL | IOURING.

(** ** The environment *)

Record World := mk_World {
  (** results the engine delivers to the next [fc.Get()] calls *)
  completions : list IoResult;
  (** operations submitted so far with their results, oldest first *)
  submitted : list (Op * IoResult);
  (** the thread's [errno] *)
  errno : Z;
  (** [fstat(fd, &sb)]: [inl st_size] on success, [inr e] sets [errno] *)
  fstat_of : Z -> Z + Z;
  (** [close(fd)]: [Some e] when it fails with [errno = e] *)
  close_of : Z -> option Z;
  (** direct system calls made so far, oldest first *)
  syscalls : list Syscall;
  (** [ProactorBase::me()] *)
  me : option ProactorKind;
  (** whether [DCHECK]s are compiled in *)
  DCHECK_IS_ON : bool
}.

(** How a call ends. *)
Inductive Outcome (A : Type) :=
| Ret (a : A) (w : World)     (* the call returns [a] *)
| Fatal (w : World)           (* a CHECK or DCHECK failed: the process aborts *)
| Undefined                   (* an access outside the caller's array *)
| Pending (w : World)         (* suspended on an operation that never completes *)
| OutOfFuel.                  (* the model's loop bound was too small *)
Arguments Ret {A} a w.
Arguments Fatal {A} w.
Arguments Undefined {A}.
Arguments Pending {A} w.
Arguments OutOfFuel {A}.

Definition M (A : Type) : Type := World -> Outcome A.

Definition ret {A} (a : A) : M A := fun w => Ret a w.

Definition bind {A B} (m : M A) (k : A -> M B) : M B :=
  fun w =>
    match m w with
    | Ret a w' => k a w'
    | Fatal w' => Fatal w'
    | Undefined => Undefined
    | Pending w' => Pending w'
    | OutOfFuel => OutOfFuel
    end.

Declare Scope io_scope.
Delimit Scope io_scope with io.
Notation "x <- m ;; k" := (bind m (fun x => k))
  (at level 100, m at next level, right associativity) : io_scope.
Notation "m ;;; k" := (bind m (fun _ => k))
  (at level 100, right associativity) : io_scope.
Local Open Scope io_scope.

(** [FiberCall fc(p); fc->Prep...(..); fc.Get()]: submit one operation,
    suspend, resume with its result. *)
Definition FiberCall_Get (op : Op) : M IoResult :=
  fun w =>
    match completions w with
    | [] => Pending w
    | r :: rest =>
        Ret r (mk_World rest (submitted w ++ [(op, r)]) (errno w)
                 (fstat_of w) (close_of w) (syscalls w) (me w)
                 (DCHECK_IS_ON w))
    end.

(** [CHECK(cond)]: fatal in every build. *)
Definition CHECK (cond : bool) : M unit :=
  fun w => if cond then Ret tt w else Fatal w.

(** [DCHECK(cond)]: compiled out unless the build is a debug build. *)
Definition DCHECK (cond : bool) : M unit :=
  fun w => if DCHECK_IS_ON w && negb cond then Fatal w else Ret tt w.

(** ** Implementation helpers *)

Definition CloseFile (fd : Z) : M error_code :=
  if 0 <? fd then
    io_res <- FiberCall_Get (PrepClose fd) ;;
    if io_res <? 0 then ret (mk_error_code (- io_res))
    else ret ec_ok
  else ret ec_ok.

(** [iovcnt] is the length of [iov]. *)
Definition iovcnt (iov : list iovec) : Z := Z.of_nat (List.length iov).

Definition WriteSomeInternal (fd : Z) (iov : list iovec) (offset flags : Z)
  : M (Result Z) :=
  CHECK (0 <=? fd) ;;;
  CHECK (0 <? iovcnt iov) ;;;
  io_res <- FiberCall_Get (PrepWriteV fd iov offset flags) ;;
  if io_res <? 0 then ret (Unexpected (mk_error_code (- io_res)))
  else ret (Ok io_res).

Definition ReadSomeInternal (fd : Z) (iov : list iovec) (offset flags : Z)
  : M (Result Z) :=
  CHECK (0 <=? fd) ;;;
  CHECK (0 <? iovcnt iov) ;;;
  io_res <- FiberCall_Get (PrepReadV fd iov offset flags) ;;
  if io_res <? 0 then ret (Unexpected (mk_error_code (- io_res)))
  else ret (Ok io_res).

(** The single-buffer retry loop.  [fuel] bounds the iterations of
    [while (true)]; every iteration consumes one completion, so
    [ReadAll] below passes one more than the engine has. *)
Fixpoint ReadAll_loop (fuel : nat) (fd offset next len read_total : Z)
  : M (Result Z) :=
  match fuel with
  | O => fun _ => OutOfFuel
  | S fuel' =>
      io_res <- FiberCall_Get (PrepRead fd next len offset) ;;
      if io_res <? 0 then ret (Unexpected (mk_error_code (- io_res)))
      else if io_res =? 0 then ret (Ok (to_size_t read_total))
      else
        let read_total := to_ssize_t (read_total + io_res) in
        if to_size_t read_total =? len then ret (Ok (to_size_t read_total))
        else
          ReadAll_loop fuel' fd (to_size_t (offset + io_res)) (next + io_res)
            len read_total
  end.

Definition ReadAll (fd offset next len : Z) : M (Result Z) :=
  DCHECK (0 <? len) ;;;
  fun w => ReadAll_loop (S (List.length (completions w))) fd offset next len 0 w.

(** [while (len && v->iov_len <= read) { --len; read -= v->iov_len; ++v; }]
    The remaining array and the remaining [read] are returned. *)
Fixpoint skip_completed (v : list iovec) (read : Z) : list iovec * Z :=
  match v with
  | [] => ([], read)
  | e :: v' =>
      if iov_len e <=? read then skip_completed v' (read - iov_len e)
      else (v, read)
  end.

(** ** [ReadFileImpl] *)

Module ReadFileImpl.

Record t := mk { fd_ : Z; file_size_ : Z }.

Definition Size (this : t) : Z := file_size_ this.

Definition Handle (this : t) : Z := fd_ this.

(** [~ReadFileImpl()]: the result of [CloseFile] is dropped. *)
Definition destroy (this : t) : M unit :=
  CloseFile (fd_ this) ;;; ret tt.

Definition Close (this : t) : M (error_code * t) :=
  ec <- CloseFile (fd_ this) ;;
  ret (ec, mk (-1) (file_size_ this)).

(** The body of [do { ... } while (len > 0)].  [v] is the array from
    the current position, [len] its length.  [fuel] bounds the
    iterations; each one drops at least one entry, so [Read] passes
    [len]. *)
Fixpoint Read_loop (fuel : nat) (fd offset : Z) (v : list iovec)
  (read_total : Z) : M (Result Z) :=
  match fuel with
  | O => fun _ => OutOfFuel
  | S fuel' =>
      res <- ReadSomeInternal fd v (to_off_t (offset + read_total)) 0 ;;
      match res with
      | Unexpected ec => ret (Unexpected ec)
      | Ok read =>
          if read =? 0 then ret (Ok (to_size_t read_total))
          else
            let read_total := to_ssize_t (read_total + read) in
            let '(v, read) := skip_completed v read in
            if 0 <? read then
              DCHECK (0 <? iovcnt v) ;;;
              match v with
              | [] => fun _ => Undefined
              | e :: v' =>
                  let next := iov_base e + read in
                  let count := iov_len e - read in
                  res <- ReadAll fd (to_size_t (offset + read_total)) next
                           count ;;
                  match res with
                  | Unexpected ec => ret (Unexpected ec)
                  | Ok n =>
                      let read_total := to_ssize_t (read_total + n) in
                      if n <? count then ret (Ok (to_size_t read_total))
                      else if 0 <? iovcnt v' then
                        Read_loop fuel' fd offset v' read_total
                      else ret (Ok (to_size_t read_total))
                  end
              end
            else if 0 <? iovcnt v then
              Read_loop fuel' fd offset v read_total
            else ret (Ok (to_size_t read_total))
      end
  end.

Definition Read (this : t) (offset : Z) (v : list iovec)
  : M (Result Z * t) :=
  DCHECK (0 <=? fd_ this) ;;;
  if iovcnt v =? 0 then ret (Ok 0, this)
  else
    res <- Read_loop (List.length v) (fd_ this) offset v 0 ;;
    ret (res, this).

End ReadFileImpl.

(** ** [WriteFileImpl] *)

Module WriteFileImpl.

Record t := mk { create_file_name_ : string; fd_ : Z; offs_ : Z }.

(** [WriteFileImpl(p, file_name)]: [fd_ = -1], [offs_ = 0]. *)
Definition new (file_name : string) : t := mk file_name (-1) 0.

Definition destroy (this : t) : M unit :=
  CloseFile (fd_ this) ;;; ret tt.

Definition Open (this : t) (flags : Z) : M (error_code * t) :=
  CHECK (fd_ this =? -1) ;;;
  io_res <- FiberCall_Get
              (PrepOpenAt (-100) (create_file_name_ this) flags 420) ;;
  if io_res <? 0 then ret (mk_error_code (- io_res), this)
  else ret (ec_ok, mk (create_file_name_ this) io_res (offs_ this)).

Definition Close (this : t) : M (error_code * t) :=
  ec <- CloseFile (fd_ this) ;;
  ret (ec, mk (create_file_name_ this) (-1) (offs_ this)).

Definition WriteSome (this : t) (v : list iovec) : M (Result Z * t) :=
  res <- WriteSomeInternal (fd_ this) v (offs_ this) 0 ;;
  match res with
  | Ok n =>
      ret (res, mk (create_file_name_ this) (fd_ this)
                  (to_off_t (offs_ this + n)))
  | Unexpected _ => ret (res, this)
  end.

End WriteFileImpl.

(** ** [LinuxFileImpl] *)

Module LinuxFileImpl.

Record t := mk { fd_ : Z }.

Definition destroy (this : t) : M unit :=
  CloseFile (fd_ this) ;;; ret tt.

Definition WriteSome (this : t) (iov : list iovec) (offset flags : Z)
  : M (Result Z) :=
  WriteSomeInternal (fd_ this) iov offset flags.

Definition ReadSome (this : t) (iov : list iovec) (offset flags : Z)
  : M (Result Z) :=
  ReadSomeInternal (fd_ this) iov offset flags.

Definition Close (this : t) : M (error_code * t) :=
  ec <- CloseFile (fd_ this) ;;
  ret (ec, mk (-1)).

End LinuxFileImpl.

(** ** Factories *)

(** Values of [<fcntl.h>] on Linux. *)
Definition AT_FDCWD : Z := -100.
Definition O_RDONLY : Z := 0.
Definition O_WRONLY : Z := 1.
Definition O_CREAT : Z := 64.
Definition O_TRUNC : Z := 512.
Definition O_APPEND : Z := 1024.
Definition O_CLOEXEC : Z := 524288.
Definition POSIX_FADV_SEQUENTIAL : Z := 2.

(** [ProactorBase* me = ProactorBase::me();
     DCHECK(me->GetKind() == ProactorBase::IOURING);
     Proactor* p = static_cast<Proactor*>(CHECK_NOTNULL(me));] *)
Definition current_proactor : M unit :=
  fun w =>
    match me w with
    | None => if DCHECK_IS_ON w then Undefined else Fatal w
    | Some IOURING => Ret tt w
    | Some EPOLL => if DCHECK_IS_ON w then Fatal w else Undefined
    end.

(** [fstat(fd, &sb)]: the return value and [sb.st_size]. *)
Definition sys_fstat (fd : Z) : M (Z * Z) :=
  fun w =>
    let log := syscalls w ++ [SysFstat fd] in
    match fstat_of w fd with
    | inl st_size =>
        Ret (0, st_size)
          (mk_World (completions w) (submitted w) (errno w) (fstat_of w)
             (close_of w) log (me w) (DCHECK_IS_ON w))
    | inr e =>
        Ret (-1, 0)
          (mk_World (completions w) (submitted w) e (fstat_of w)
             (close_of w) log (me w) (DCHECK_IS_ON w))
    end.

(** [close(fd)]. *)
Definition sys_close (fd : Z) : M Z :=
  fun w =>
    let log := syscalls w ++ [SysClose fd] in
    match close_of w fd with
    | None =>
        Ret 0
          (mk_World (completions w) (submitted w) (errno w) (fstat_of w)
             (close_of w) log (me w) (DCHECK_IS_ON w))
    | Some e =>
        Ret (-1)
          (mk_World (completions w) (submitted w) e (fstat_of w)
             (close_of w) log (me w) (DCHECK_IS_ON w))
    end.

Definition get_errno : M Z := fun w => Ret (errno w) w.

Definition OpenWrite (path : string) (append : bool)
  : M (Result WriteFileImpl.t) :=
  let flags := Z.lor (Z.lor O_CREAT O_WRONLY) O_CLOEXEC in
  let flags := if append then Z.lor flags O_APPEND else Z.lor flags O_TRUNC in
  current_proactor ;;;
  let impl := WriteFileImpl.new path in
  r <- WriteFileImpl.Open impl flags ;;
  let '(ec, impl) := r in
  if ec_bool ec then
    WriteFileImpl.destroy impl ;;; ret (Unexpected ec)
  else ret (Ok impl).

Definition OpenRead (path : string) : M (Result ReadFileImpl.t) :=
  let flags := Z.lor O_RDONLY O_CLOEXEC in
  current_proactor ;;;
  io_res <- FiberCall_Get (PrepOpenAt AT_FDCWD path flags 0) ;;
  if io_res <? 0 then ret (Unexpected (mk_error_code (- io_res)))
  else
    let fd := io_res in
    st <- sys_fstat fd ;;
    let '(rc, st_size) := st in
    if rc <? 0 then
      e <- get_errno ;;
      sys_close fd ;;;
      ret (Unexpected (mk_error_code e))
    else
      io_res <- FiberCall_Get (PrepFadvise fd 0 0 POSIX_FADV_SEQUENTIAL) ;;
      if io_res <? 0 then
        e <- get_errno ;;
        sys_close fd ;;;
        ret (Unexpected (mk_error_code e))
      else ret (Ok (ReadFileImpl.mk fd (to_size_t st_size))).

Definition OpenLinux (path : string) (flags mode : Z)
  : M (Result LinuxFileImpl.t) :=
  current_proactor ;;;
  io_res <- FiberCall_Get (PrepOpenAt AT_FDCWD path flags mode) ;;
  if io_res <? 0 then ret (Unexpected (mk_error_code (- io_res)))
  else ret (Ok (LinuxFileImpl.mk io_res)).

(** ** Runs: what a call adds to the submission log *)

Definition sum_results (l : list (Op * IoResult)) : Z :=
  fold_right (fun x acc => snd x + acc) 0 l.

(** [Delivered w new w']: between [w] and [w'] exactly the operations
    [new] were submitted, and they consumed the engine's results in
    order. *)
Definition Delivered (w : World) (new : list (Op * IoResult)) (w' : World)
  : Prop :=
  submitted w' = submitted w ++ new /\
  completions w = map snd new ++ completions w' /\
  DCHECK_IS_ON w' = DCHECK_IS_ON w.

(** The world after the engine completed [op] with [r]. *)
Definition completed (op : Op) (r : IoResult) (w : World) : World :=
  mk_World (tl (completions w)) (submitted w ++ [(op, r)]) (errno w)
    (fstat_of w) (close_of w) (syscalls w) (me w) (DCHECK_IS_ON w).

(** The bytes an operation asks for. *)
Definition total_len (iov : list iovec) : Z :=
  fold_right (fun e acc => iov_len e + acc) 0 iov.

Definition request_len (op : Op) : Z :=
  match op with
  | PrepWriteV _ iov _ _ => total_len iov
  | PrepReadV _ iov _ _ => total_len iov
  | PrepRead _ _ len _ => len
  | _ => 0
  end.

(** The operation of the positional read primitive. *)
Definition is_readv (op : Op) : bool :=
  match op with
  | PrepReadV _ _ _ _ => true
  | _ => false
  end.

(** Every completion is a byte count between 0 and the request. *)
Definition within_request (l : list (Op * IoResult)) : bool :=
  forallb (fun x => (0 <=? snd x) && (snd x <=? request_len (fst x))) l.

(** Completions that stay within what is still missing: a vectored read
    delivers at most the length of its list, and the retries of one
    entry deliver at most what is left of that entry, which is [rem]
    once the first retry has completed. *)
Fixpoint within_remaining (rem : option Z) (l : list (Op * IoResult))
  : Prop :=
  match l with
  | [] => True
  | (PrepReadV _ iov _ _, r) :: l' =>
      r <= total_len iov /\ within_remaining None l'
  | (PrepRead _ _ len _, r) :: l' =>
      let left := match rem with Some x => x | None => len end in
      r <= left /\ within_remaining (Some (left - r)) l'
  | _ :: l' => within_remaining rem l'
  end.

(** What the result of a read accounts for: a success is the running
    total plus every delivered byte count; an error is the negation of
    the last, negative, completion. *)
Definition accounts (read_total : Z) (new : list (Op * IoResult))
  (res : Result Z) : Prop :=
  match res with
  | Ok n =>
      n = to_size_t (read_total + sum_results new) /\
      Forall (fun x => 0 <= snd x) new
  | Unexpected ec =>
      exists pre op r,
        new = pre ++ [(op, r)] /\ r < 0 /\ ec = mk_error_code (- r)
  end.

(** A world for examples: a debug build on a uring proactor whose engine
    will deliver the given results; [fstat] reports 10 bytes, [close]
    succeeds, [errno] is 0. *)
Definition example_world (cs : list IoResult) : World :=
  mk_World cs [] 0 (fun _ => inl 10) (fun _ => None) [] (Some IOURING) true.

(** The sum of a list of byte counts. *)
Definition sum_counts (bs : list Z) : Z := fold_right Z.add 0 bs.

(** ** Lifetimes of the abstractions *)

(** The states a [WriteFileImpl] goes through from its construction,
    indexed by the byte counts of its successful [WriteSome] calls. *)
Inductive WriteHistory : list Z -> WriteFileImpl.t -> Prop :=
| WH_new (name : string) :
    WriteHistory [] (WriteFileImpl.new name)
| WH_Open bs this flags w ec this' w' :
    WriteHistory bs this ->
    WriteFileImpl.Open this flags w = Ret (ec, this') w' ->
    WriteHistory bs this'
| WH_Close bs this w ec this' w' :
    WriteHistory bs this ->
    WriteFileImpl.Close this w = Ret (ec, this') w' ->
    WriteHistory bs this'
| WH_WriteSome_ok bs this v w b this' w' :
    WriteHistory bs this ->
    WriteFileImpl.WriteSome this v w = Ret (Ok b, this') w' ->
    WriteHistory (bs ++ [b]) this'
| WH_WriteSome_err bs this v w ec this' w' :
    WriteHistory bs this ->
    WriteFileImpl.WriteSome this v w = Ret (Unexpected ec, this') w' ->
    WriteHistory bs this'.

(** The states a [ReadFileImpl] goes through after it was created. *)
Inductive ReadLifetime : ReadFileImpl.t -> ReadFileImpl.t -> Prop :=
| RL_refl this : ReadLifetime this this
| RL_Read this0 this offset v w res this' w' :
    ReadLifetime this0 this ->
    ReadFileImpl.Read this offset v w = Ret (res, this') w' ->
    ReadLifetime this0 this'
| RL_Close this0 this w ec this' w' :
    ReadLifetime this0 this ->
    ReadFileImpl.Close this w = Ret (ec, this') w' ->
    ReadLifetime this0 this'.

(** ** [LinuxFile::Write] and [LinuxFile::Read] *)

Module LinuxFile.

(** The lambda that [Write] hands to [io::ApplyExactly].  It captures
    [offset] by value and is [mutable]: the captured offset is the
    state that one invocation passes to the next. *)
Definition Write_cb (this : LinuxFileImpl.t) (flags : Z) (offset : Z)
  (iov : list iovec) : M (Result Z * Z) :=
  res <- LinuxFileImpl.WriteSome this iov offset flags ;;
  match res with
  | Ok n => ret (res, to_off_t (offset + n))
  | Unexpected _ => ret (res, offset)
  end.

(** The lambda that [Read] hands to [io::ApplyExactly]. *)
Definition Read_cb (this : LinuxFileImpl.t) (flags : Z) (offset : Z)
  (iov : list iovec) : M (Result Z * Z) :=
  res <- LinuxFileImpl.ReadSome this iov offset flags ;;
  match res with
  | Ok n => ret (res, to_off_t (offset + n))
  | Unexpected _ => ret (res, offset)
  end.

(** [io::ApplyExactly] is defined in another translation unit: it is a
    parameter here, given the list, the initial state of the callback
    and the callback. *)
Definition ApplyExactly_t : Type :=
  list iovec -> Z -> (Z -> list iovec -> M (Result Z * Z)) -> M error_code.

Definition Write (ApplyExactly : ApplyExactly_t) (this : LinuxFileImpl.t)
  (iov : list iovec) (offset flags : Z) : M error_code :=
  ApplyExactly iov offset (Write_cb this flags).

Definition Read (ApplyExactly : ApplyExactly_t) (this : LinuxFileImpl.t)
  (iov : list iovec) (offset flags : Z) : M error_code :=
  ApplyExactly iov offset (Read_cb this flags).

End LinuxFile.

(** The invocations of a callback [cb] one after the other, each started
    with the offset the one before left: the byte counts of the
    successful ones, and the offset after the last. *)
Inductive CallbackCalls (cb : Z -> list iovec -> M (Result Z * Z))
  (offset0 : Z) : list Z -> Z -> Prop :=
| CC_none : CallbackCalls cb offset0 [] offset0
| CC_ok bs offset iov w b offset' w' :
    CallbackCalls cb offset0 bs offset ->
    cb offset iov w = Ret (Ok b, offset') w' ->
    CallbackCalls cb offset0 (bs ++ [b]) offset'
| CC_err bs offset iov w ec offset' w' :
    CallbackCalls cb offset0 bs offset ->
    cb offset iov w = Ret (Unexpected ec, offset') w' ->
    CallbackCalls cb offset0 bs offset'.

(** ** The operations of one call of [Read] *)

(** The operations that a returning [ReadAll] submits, with their
    results, and what it returns: one case for each way out of an
    iteration of its loop. *)
Inductive ReadAllTrace (fd len : Z)
  : Z -> Z -> Z -> list (Op * IoResult) -> Result Z -> Prop :=
| RA_error offset next rt r :
    r < 0 ->
    ReadAllTrace fd len offset next rt
      [(PrepRead fd next len offset, r)]
      (Unexpected (mk_error_code (- r)))
| RA_eof offset next rt :
    ReadAllTrace fd len offset next rt
      [(PrepRead fd next len offset, 0)]
      (Ok (to_size_t rt))
| RA_full offset next rt r :
    0 < r ->
    to_size_t (to_ssize_t (rt + r)) = len ->
    ReadAllTrace fd len offset next rt
      [(PrepRead fd next len offset, r)]
      (Ok (to_size_t (to_ssize_t (rt + r))))
| RA_more offset next rt r rest res :
    0 < r ->
    to_size_t (to_ssize_t (rt + r)) <> len ->
    ReadAllTrace fd len (to_size_t (offset + r)) (next + r)
      (to_ssize_t (rt + r)) rest res ->
    ReadAllTrace fd len offset next rt
      ((PrepRead fd next len offset, r) :: rest) res.

(** The same for the loop of [ReadFileImpl::Read], from the state with
    remaining list [v] and running total [rt]. *)
Inductive ReadTrace (fd offset : Z)
  : list iovec -> Z -> list (Op * IoResult) -> Result Z -> Prop :=
| RT_error v rt r :
    v <> [] -> r < 0 ->
    ReadTrace fd offset v rt
      [(PrepReadV fd v (to_off_t (offset + rt)) 0, r)]
      (Unexpected (mk_error_code (- r)))
| RT_eof v rt :
    v <> [] ->
    ReadTrace fd offset v rt
      [(PrepReadV fd v (to_off_t (offset + rt)) 0, 0)]
      (Ok (to_size_t rt))
| RT_done v rt r part :
    v <> [] -> 0 < r ->
    skip_completed v r = ([], part) -> part <= 0 ->
    ReadTrace fd offset v rt
      [(PrepReadV fd v (to_off_t (offset + rt)) 0, r)]
      (Ok (to_size_t (to_ssize_t (rt + r))))
| RT_next v rt r v1 part rest res :
    v <> [] -> 0 < r ->
    skip_completed v r = (v1, part) -> part <= 0 -> v1 <> [] ->
    ReadTrace fd offset v1 (to_ssize_t (rt + r)) rest res ->
    ReadTrace fd offset v rt
      ((PrepReadV fd v (to_off_t (offset + rt)) 0, r) :: rest) res
| RT_retry_error v rt r e v' part block ec :
    v <> [] -> 0 < r ->
    skip_completed v r = (e :: v', part) -> 0 < part ->
    ReadAllTrace fd (iov_len e - part)
      (to_size_t (offset + to_ssize_t (rt + r))) (iov_base e + part) 0
      block (Unexpected ec) ->
    ReadTrace fd offset v rt
      ((PrepReadV fd v (to_off_t (offset + rt)) 0, r) :: block)
      (Unexpected ec)
| RT_retry_short v rt r e v' part block n :
    v <> [] -> 0 < r ->
    skip_completed v r = (e :: v', part) -> 0 < part ->
    ReadAllTrace fd (iov_len e - part)
      (to_size_t (offset + to_ssize_t (rt + r))) (iov_base e + part) 0
      block (Ok n) ->
    n < iov_len e - part ->
    ReadTrace fd offset v rt
      ((PrepReadV fd v (to_off_t (offset + rt)) 0, r) :: block)
      (Ok (to_size_t (to_ssize_t (to_ssize_t (rt + r) + n))))
| RT_retry_done v rt r e part block n :
    v <> [] -> 0 < r ->
    skip_completed v r = ([e], part) -> 0 < part ->
    ReadAllTrace fd (iov_len e - part)
      (to_size_t (offset + to_ssize_t (rt + r))) (iov_base e + part) 0
      block (Ok n) ->
    iov_len e - part <= n ->
    ReadTrace fd offset v rt
      ((PrepReadV fd v (to_off_t (offset + rt)) 0, r) :: block)
      (Ok (to_size_t (to_ssize_t (to_ssize_t (rt + r) + n))))
| RT_retry_next v rt r e v' part block n rest res :
    v <> [] -> 0 < r ->
    skip_completed v r = (e :: v', part) -> 0 < part ->
    ReadAllTrace fd (iov_len e - part)
      (to_size_t (offset + to_ssize_t (rt + r))) (iov_base e + part) 0
      block (Ok n) ->
    iov_len e - part <= n -> v' <> [] ->
    ReadTrace fd offset v' (to_ssize_t (to_ssize_t (rt + r) + n)) rest res ->
    ReadTrace fd offset v rt
      ((PrepReadV fd v (to_off_t (offset + rt)) 0, r) :: block ++ rest) res.

(** The number of vectored reads among the operations. *)
Definition count_readv (l : list (Op * IoResult)) : nat :=
  List.length (filter (fun x => is_readv (fst x)) l).

(** The file offset an operation is submitted at. *)
Definition op_offset (op : Op) : Z :=
  match op with
  | PrepWriteV _ _ offset _ => offset
  | PrepReadV _ _ offset _ => offset
  | PrepRead _ _ _ offset => offset
  | _ => 0
  end.

(** Each operation starts, modulo 2^64, at the file position where the
    one before it stopped; the first one at [pos]. *)
Fixpoint contiguous (pos : Z) (l : list (Op * IoResult)) : Prop :=
  match l with
  | [] => True
  | x :: l' =>
      to_size_t (op_offset (fst x)) = to_size_t pos /\
      contiguous (pos + snd x) l'
  end.

(** Where an operation stores what it reads, in terms of the caller's
    list [v] laid end to end: it starts at position [pos] of that
    layout and what it delivers stays inside.  A vectored read is over
    the rest of the list from an entry boundary at [pos]; a retry is at
    the address of position [pos], inside one entry. *)
Definition lands (v : list iovec) (pos : Z) (x : Op * IoResult) : Prop :=
  match fst x with
  | PrepReadV _ v' _ _ =>
      exists pre, v = pre ++ v' /\ total_len pre = pos /\
                  snd x <= total_len v'
  | PrepRead _ buf _ _ =>
      exists pre e post,
        v = pre ++ e :: post /\
        0 <= pos - total_len pre /\
        (pos - total_len pre) + snd x <= iov_len e /\
        buf = iov_base e + (pos - total_len pre)
  | _ => False
  end.

Fixpoint in_order (v : list iovec) (pos : Z) (l : list (Op * IoResult))
  : Prop :=
  match l with
  | [] => True
  | x :: l' => lands v pos x /\ in_order v (pos + snd x) l'
  end.

(** An operation that belongs to a [Read] on descriptor [fd] over the
    list [v]: a vectored read without flags over a non-empty rest of
    [v], or a plain read for what follows the first [part] bytes of an
    entry of [v], at or behind that position of the entry. *)
Definition own_read (fd : Z) (v : list iovec) (x : Op * IoResult) : Prop :=
  match fst x with
  | PrepReadV fd' v' _ flags =>
      fd' = fd /\ flags = 0 /\ v' <> [] /\ exists pre, v = pre ++ v'
  | PrepRead fd' buf len _ =>
      fd' = fd /\
      exists e part,
        In e v /\ 0 < part /\ len = iov_len e - part /\
        iov_base e + part <= buf
  | _ => False
  end.

(** How a call of [Read] ends, read off its operations: with success
    after non-negative completions only, or with the error of a
    negative completion that is the last one and the only one. *)
Definition stops_at_first_error (new : list (Op * IoResult))
  (res : Result Z) : Prop :=
  (Forall (fun x => 0 <= snd x) new /\ exists n, res = Ok n) \/
  (exists pre op r,
     new = pre ++ [(op, r)] /\ Forall (fun x => 0 <= snd x) pre /\
     r < 0 /\ res = Unexpected (mk_error_code (- r))).

(** ** Basic facts *)

Section Arith.

Lemma to_ssize_t_id z : - 2 ^ 63 <= z <= SSIZE_MAX -> to_ssize_t z = z.
Proof.
  unfold to_ssize_t, SSIZE_MAX. intros H.
  rewrite Z.mod_small by lia. lia.
Qed.

Lemma to_size_t_id z : 0 <= z < 2 ^ 64 -> to_size_t z = z.
Proof. unfold to_size_t. intros H. now apply Z.mod_small. Qed.

Lemma to_size_t_ssize z : to_size_t (to_ssize_t z) = to_size_t z.
Proof.
  unfold to_size_t, to_ssize_t.
  rewrite Zminus_mod_idemp_l.
  f_equal. lia.
Qed.

Lemma to_size_t_add_ssize x y :
  to_size_t (to_ssize_t x + y) = to_size_t (x + y).
Proof.
  unfold to_size_t.
  rewrite <- Zplus_mod_idemp_l.
  fold (to_size_t (to_ssize_t x)). rewrite to_size_t_ssize.
  unfold to_size_t. now rewrite Zplus_mod_idemp_l.
Qed.

Lemma to_size_t_add_size x y :
  to_size_t (x + to_size_t y) = to_size_t (x + y).
Proof. unfold to_size_t. now rewrite Zplus_mod_idemp_r. Qed.

End Arith.

Section Monad.

Context {A B : Type}.

Lemma bind_Ret (m : M A) (k : A -> M B) w b w' :
  bind m k w = Ret b w' ->
  exists a w1, m w = Ret a w1 /\ k a w1 = Ret b w'.
Proof.
  unfold bind. destruct (m w) as [a w1| | | |]; try discriminate.
  intros H. now exists a, w1.
Qed.

Lemma bind_of_Ret (m : M A) (k : A -> M B) w a w1 :
  m w = Ret a w1 -> bind m k w = k a w1.
Proof. unfold bind. now intros ->. Qed.

End Monad.

Lemma CHECK_Ret cond w u w' : CHECK cond w = Ret u w' -> cond = true /\ w' = w.
Proof. unfold CHECK. destruct cond; [intros [= _ ->]; auto | discriminate]. Qed.

Lemma DCHECK_Ret cond w u w' :
  DCHECK cond w = Ret u w' ->
  (DCHECK_IS_ON w = true -> cond = true) /\ w' = w.
Proof.
  unfold DCHECK. destruct (DCHECK_IS_ON w), cond; simpl;
    try discriminate; intros [= _ ->]; auto.
Qed.

Lemma FiberCall_Get_Ret op w r w' :
  FiberCall_Get op w = Ret r w' ->
  completions w = r :: completions w' /\ w' = completed op r w.
Proof.
  unfold FiberCall_Get, completed.
  destruct (completions w) as [|r0 rest] eqn:E; [discriminate|].
  intros [= -> <-]. simpl. auto.
Qed.

Lemma FiberCall_Get_next op w r rest :
  completions w = r :: rest ->
  FiberCall_Get op w = Ret r (completed op r w).
Proof. unfold FiberCall_Get, completed. now intros ->. Qed.

Lemma Delivered_nil w : Delivered w [] w.
Proof. unfold Delivered. rewrite app_nil_r. auto. Qed.

Lemma Delivered_completed op r w :
  completions w = r :: tl (completions w) ->
  Delivered w [(op, r)] (completed op r w).
Proof. unfold Delivered, completed. simpl. auto. Qed.

Lemma Delivered_trans w1 l1 w2 l2 w3 :
  Delivered w1 l1 w2 -> Delivered w2 l2 w3 -> Delivered w1 (l1 ++ l2) w3.
Proof.
  unfold Delivered. intros (S1 & C1 & D1) (S2 & C2 & D2).
  rewrite S2, S1, C1, C2, map_app, <- !app_assoc. repeat split; congruence.
Qed.

Lemma sum_results_app l1 l2 :
  sum_results (l1 ++ l2) = sum_results l1 + sum_results l2.
Proof. induction l1 as [|x l1 IH]; simpl; [reflexivity | rewrite IH; lia]. Qed.

(** ** The descriptor-lifecycle helper *)

Lemma CloseFile_not_positive fd w : fd <= 0 -> CloseFile fd w = Ret ec_ok w.
Proof.
  intros H. unfold CloseFile.
  destruct (0 <? fd) eqn:E; [apply Z.ltb_lt in E; lia | reflexivity].
Qed.

Lemma CloseFile_positive fd w r rest :
  0 < fd -> completions w = r :: rest ->
  CloseFile fd w =
    Ret (if r <? 0 then mk_error_code (- r) else ec_ok)
        (completed (PrepClose fd) r w).
Proof.
  intros H E. unfold CloseFile.
  apply Z.ltb_lt in H. rewrite H.
  rewrite (bind_of_Ret _ _ _ _ _ (FiberCall_Get_next _ _ _ _ E)).
  now destruct (r <? 0).
Qed.

Lemma ReadFileImpl_Close_fd this w ec this' w' :
  ReadFileImpl.Close this w = Ret (ec, this') w' ->
  ReadFileImpl.fd_ this' = -1 /\
  ReadFileImpl.file_size_ this' = ReadFileImpl.file_size_ this.
Proof.
  unfold ReadFileImpl.Close. intros H.
  apply bind_Ret in H as (e & w1 & _ & H).
  unfold ret in H. injection H as _ <- _. auto.
Qed.

Lemma WriteFileImpl_Close_fd this w ec this' w' :
  WriteFileImpl.Close this w = Ret (ec, this') w' ->
  WriteFileImpl.fd_ this' = -1 /\
  WriteFileImpl.offs_ this' = WriteFileImpl.offs_ this.
Proof.
  unfold WriteFileImpl.Close. intros H.
  apply bind_Ret in H as (e & w1 & _ & H).
  unfold ret in H. injection H as _ <- _. auto.
Qed.

Lemma LinuxFileImpl_Close_fd this w ec this' w' :
  LinuxFileImpl.Close this w = Ret (ec, this') w' ->
  LinuxFileImpl.fd_ this' = -1.
Proof.
  unfold LinuxFileImpl.Close. intros H.
  apply bind_Ret in H as (e & w1 & _ & H).
  unfold ret in H. injection H as _ <- _. auto.
Qed.

(** C4. Idempotent close.  [CloseFile] on the closed sentinel [-1]
    returns success and leaves the engine untouched.  For each of the
    three file abstractions, once a first [Close] has returned, a
    second [Close] in any later state of the world returns success,
    submits nothing (the world is unchanged) and leaves the object as
    it was. *)
Theorem close_is_idempotent :
  (forall w, CloseFile (-1) w = Ret ec_ok w) /\
  (forall this w ec this1 w1 w2,
      ReadFileImpl.Close this w = Ret (ec, this1) w1 ->
      ReadFileImpl.Close this1 w2 = Ret (ec_ok, this1) w2) /\
  (forall this w ec this1 w1 w2,
      WriteFileImpl.Close this w = Ret (ec, this1) w1 ->
      WriteFileImpl.Close this1 w2 = Ret (ec_ok, this1) w2) /\
  (forall this w ec this1 w1 w2,
      LinuxFileImpl.Close this w = Ret (ec, this1) w1 ->
      LinuxFileImpl.Close this1 w2 = Ret (ec_ok, this1) w2).
Proof.
  split; [intros w; apply CloseFile_not_positive; lia|].
  repeat split; intros this w ec this1 w1 w2 H.
  - apply ReadFileImpl_Close_fd in H as [Hfd _].
    destruct this1 as [fd sz]; simpl in Hfd; subst fd.
    unfold ReadFileImpl.Close; simpl.
    now rewrite (bind_of_Ret _ _ _ _ _ (CloseFile_not_positive (-1) w2 ltac:(lia))).
  - apply WriteFileImpl_Close_fd in H as [Hfd _].
    destruct this1 as [nm fd offs]; simpl in Hfd; subst fd.
    unfold WriteFileImpl.Close; simpl.
    now rewrite (bind_of_Ret _ _ _ _ _ (CloseFile_not_positive (-1) w2 ltac:(lia))).
  - apply LinuxFileImpl_Close_fd in H.
    destruct this1 as [fd]; simpl in H; subst fd.
    unfold LinuxFileImpl.Close; simpl.
    now rewrite (bind_of_Ret _ _ _ _ _ (CloseFile_not_positive (-1) w2 ltac:(lia))).
Qed.

Lemma close_is_idempotent_witness :
  let this := ReadFileImpl.mk 3 10 in
  let closed := ReadFileImpl.mk (-1) 10 in
  let w := example_world [0] in
  let w1 := completed (PrepClose 3) 0 w in
  ReadFileImpl.Close this w = Ret (ec_ok, closed) w1 /\
  ReadFileImpl.Close closed w1 = Ret (ec_ok, closed) w1.
Proof.
  split; [reflexivity|].
  destruct close_is_idempotent as (_ & H & _).
  apply (H (ReadFileImpl.mk 3 10) (example_world [0]) ec_ok
           (ReadFileImpl.mk (-1) 10)
           (completed (PrepClose 3) 0 (example_world [0]))).
  reflexivity.
Defined.

(** C10. [CloseFile] submits a close only for a descriptor strictly
    greater than zero.  For every [fd <= 0], the valid descriptor 0
    included, it returns success and the world is unchanged; for
    [fd > 0] it submits [PrepClose fd].  Hence [Close] and the
    destructor of an abstraction that holds descriptor 0 submit
    nothing. *)
Theorem close_skips_descriptor_zero (fd : Z) (w : World) :
  (fd <= 0 -> CloseFile fd w = Ret ec_ok w) /\
  (0 < fd -> forall r rest, completions w = r :: rest ->
     exists ec w', CloseFile fd w = Ret ec w' /\
       submitted w' = submitted w ++ [(PrepClose fd, r)]) /\
  (forall sz,
     ReadFileImpl.Close (ReadFileImpl.mk 0 sz) w
       = Ret (ec_ok, ReadFileImpl.mk (-1) sz) w /\
     ReadFileImpl.destroy (ReadFileImpl.mk 0 sz) w = Ret tt w).
Proof.
  split; [apply CloseFile_not_positive|]. split.
  - intros H r rest E. eexists _, _. split.
    + apply (CloseFile_positive fd w r rest H E).
    + reflexivity.
  - intros sz. unfold ReadFileImpl.Close, ReadFileImpl.destroy. simpl.
    now rewrite (bind_of_Ret _ _ _ _ _ (CloseFile_not_positive 0 w ltac:(lia))),
      (bind_of_Ret _ _ _ _ _ (CloseFile_not_positive 0 w ltac:(lia))).
Qed.

Lemma close_skips_descriptor_zero_witness :
  CloseFile 0 (example_world [0]) = Ret ec_ok (example_world [0]) /\
  exists ec w', CloseFile 1 (example_world [0]) = Ret ec w' /\
    submitted w' = [(PrepClose 1, 0)].
Proof.
  split.
  - apply (proj1 (close_skips_descriptor_zero 0 (example_world [0]))). lia.
  - apply (proj1 (proj2 (close_skips_descriptor_zero 1 (example_world [0])))
             ltac:(lia) 0 []).
    reflexivity.
Defined.

(** ** The positional primitives *)

Lemma iovcnt_pos iov : iov <> [] -> (0 <? iovcnt iov) = true.
Proof.
  destruct iov as [|e iov]; [congruence|]. intros _.
  apply Z.ltb_lt. unfold iovcnt. simpl List.length. lia.
Qed.

Lemma ReadSomeInternal_next fd iov offset flags w r rest :
  0 <= fd -> iov <> [] -> completions w = r :: rest ->
  ReadSomeInternal fd iov offset flags w =
    Ret (if r <? 0 then Unexpected (mk_error_code (- r)) else Ok r)
        (completed (PrepReadV fd iov offset flags) r w).
Proof.
  intros Hfd Hiov E. unfold ReadSomeInternal.
  apply Z.leb_le in Hfd. rewrite Hfd, (iovcnt_pos _ Hiov).
  unfold bind, CHECK.
  rewrite (FiberCall_Get_next _ _ _ _ E).
  now destruct (r <? 0).
Qed.

Lemma WriteSomeInternal_next fd iov offset flags w r rest :
  0 <= fd -> iov <> [] -> completions w = r :: rest ->
  WriteSomeInternal fd iov offset flags w =
    Ret (if r <? 0 then Unexpected (mk_error_code (- r)) else Ok r)
        (completed (PrepWriteV fd iov offset flags) r w).
Proof.
  intros Hfd Hiov E. unfold WriteSomeInternal.
  apply Z.leb_le in Hfd. rewrite Hfd, (iovcnt_pos _ Hiov).
  unfold bind, CHECK.
  rewrite (FiberCall_Get_next _ _ _ _ E).
  now destruct (r <? 0).
Qed.

(** C5. Error mapping of the positional primitives.  When the
    preconditions hold (descriptor not negative, buffer list not
    empty) and the engine completes the operation with [r], the read
    and the write primitive, and the [ReadSome]/[WriteSome] methods of
    the generic file built on them, submit exactly that one operation
    and return the error with code [-r] if [r < 0], and success with
    byte count [r] otherwise. *)
Theorem positional_error_mapping fd iov offset flags w r rest :
  0 <= fd -> iov <> [] -> completions w = r :: rest ->
  let result := if r <? 0 then Unexpected (mk_error_code (- r)) else Ok r in
  ReadSomeInternal fd iov offset flags w
    = Ret result (completed (PrepReadV fd iov offset flags) r w) /\
  WriteSomeInternal fd iov offset flags w
    = Ret result (completed (PrepWriteV fd iov offset flags) r w) /\
  LinuxFileImpl.ReadSome (LinuxFileImpl.mk fd) iov offset flags w
    = Ret result (completed (PrepReadV fd iov offset flags) r w) /\
  LinuxFileImpl.WriteSome (LinuxFileImpl.mk fd) iov offset flags w
    = Ret result (completed (PrepWriteV fd iov offset flags) r w).
Proof.
  intros Hfd Hiov E result. unfold LinuxFileImpl.ReadSome, LinuxFileImpl.WriteSome.
  cbn [LinuxFileImpl.fd_].
  repeat split;
    first [ apply (ReadSomeInternal_next _ _ _ _ _ _ rest); assumption
          | apply (WriteSomeInternal_next _ _ _ _ _ _ rest); assumption ].
Qed.

Lemma positional_error_mapping_witness :
  let iov := [mk_iovec 1000 8] in
  ReadSomeInternal 3 iov 0 0 (example_world [-5])
    = Ret (Unexpected (mk_error_code 5))
        (completed (PrepReadV 3 iov 0 0) (-5) (example_world [-5])) /\
  WriteSomeInternal 3 iov 0 0 (example_world [6])
    = Ret (Ok 6) (completed (PrepWriteV 3 iov 0 0) 6 (example_world [6])).
Proof.
  split.
  - apply (positional_error_mapping 3 [mk_iovec 1000 8] 0 0
             (example_world [-5]) (-5) []); [lia | discriminate | reflexivity].
  - apply (positional_error_mapping 3 [mk_iovec 1000 8] 0 0
             (example_world [6]) 6 []); [lia | discriminate | reflexivity].
Defined.

(** ** [WriteFileImpl::Open] *)

(** C8. Double open fails.  [Open] on a write abstraction whose
    descriptor is not the sentinel [-1], so in particular on one that
    holds a valid descriptor, fails the [CHECK_EQ(fd_, -1)]: the call
    ends fatally before anything is submitted, the world is as it
    was and the stored descriptor is not overwritten. *)
Theorem double_open_fails this flags w :
  WriteFileImpl.fd_ this <> -1 ->
  WriteFileImpl.Open this flags w = Fatal w.
Proof.
  intros H. unfold WriteFileImpl.Open.
  apply Z.eqb_neq in H. rewrite H. reflexivity.
Qed.

Lemma double_open_fails_witness :
  let w := example_world [4; 5] in
  let flags := Z.lor (Z.lor O_CREAT O_WRONLY) O_CLOEXEC in
  exists this w1,
    WriteFileImpl.Open (WriteFileImpl.new "f") flags w = Ret (ec_ok, this) w1 /\
    WriteFileImpl.fd_ this = 4 /\
    WriteFileImpl.Open this flags w1 = Fatal w1.
Proof.
  eexists _, _. split; [reflexivity|]. split; [reflexivity|].
  apply double_open_fails. simpl. lia.
Defined.

(** ** [ReadFileImpl::Read] on an empty list *)

(** C9. [Read] with [len = 0] returns success with byte count 0 for
    every offset, and submits nothing: the world is unchanged, so the
    [CHECK_GT(iovcnt, 0u)] of the positional primitive is never
    reached.  The only check on the way is [DCHECK_GE(fd_, 0)], which
    exists in debug builds. *)
Theorem read_of_empty_list this offset w :
  (DCHECK_IS_ON w = true -> 0 <= ReadFileImpl.fd_ this) ->
  ReadFileImpl.Read this offset [] w = Ret (Ok 0, this) w.
Proof.
  intros H. unfold ReadFileImpl.Read, bind, DCHECK.
  destruct (DCHECK_IS_ON w); [|reflexivity].
  specialize (H eq_refl). apply Z.leb_le in H. rewrite H. reflexivity.
Qed.

Lemma read_of_empty_list_witness :
  ReadFileImpl.Read (ReadFileImpl.mk 3 10) 7 [] (example_world [])
    = Ret (Ok 0, ReadFileImpl.mk 3 10) (example_world []).
Proof.
  apply read_of_empty_list. simpl. lia.
Defined.

(** ** The write cursor *)

Lemma to_ssize_t_add_ssize x y :
  to_ssize_t (to_ssize_t x + y) = to_ssize_t (x + y).
Proof.
  unfold to_ssize_t. f_equal.
  replace ((x + 2 ^ 63) mod 2 ^ 64 - 2 ^ 63 + y + 2 ^ 63)
    with ((x + 2 ^ 63) mod 2 ^ 64 + y) by lia.
  rewrite Zplus_mod_idemp_l. f_equal. lia.
Qed.

Lemma sum_counts_app l1 l2 :
  sum_counts (l1 ++ l2) = sum_counts l1 + sum_counts l2.
Proof. induction l1 as [|x l1 IH]; simpl; [reflexivity | rewrite IH; lia]. Qed.

Lemma sum_counts_nonneg bs : Forall (fun b => 0 <= b) bs -> 0 <= sum_counts bs.
Proof. induction 1; simpl; lia. Qed.

Lemma WriteSomeInternal_Ret fd iov offset flags w res w' :
  WriteSomeInternal fd iov offset flags w = Ret res w' ->
  exists r,
    w' = completed (PrepWriteV fd iov offset flags) r w /\
    completions w = r :: completions w' /\
    res = (if r <? 0 then Unexpected (mk_error_code (- r)) else Ok r).
Proof.
  unfold WriteSomeInternal. intros H.
  apply bind_Ret in H as (u1 & w1 & H1 & H). apply CHECK_Ret in H1 as [_ ->].
  apply bind_Ret in H as (u2 & w2 & H2 & H). apply CHECK_Ret in H2 as [_ ->].
  apply bind_Ret in H as (r & w3 & H3 & H).
  apply FiberCall_Get_Ret in H3 as [E ->]. exists r.
  destruct (r <? 0); unfold ret in H; injection H as <- <-; auto.
Qed.

(** One call of [WriteSome]: the operation it submits, and the cursor
    after it. *)
Lemma WriteSome_Ret this v w res this' w' :
  WriteFileImpl.WriteSome this v w = Ret (res, this') w' ->
  exists r,
    w' = completed (PrepWriteV (WriteFileImpl.fd_ this) v
                      (WriteFileImpl.offs_ this) 0) r w /\
    match res with
    | Ok b =>
        b = r /\ 0 <= b /\
        WriteFileImpl.offs_ this'
          = to_off_t (WriteFileImpl.offs_ this + b)
    | Unexpected ec => r < 0 /\ this' = this
    end.
Proof.
  unfold WriteFileImpl.WriteSome. intros H.
  apply bind_Ret in H as (res0 & w1 & H1 & H).
  apply WriteSomeInternal_Ret in H1 as (r & -> & _ & ->).
  exists r. split.
  - destruct (r <? 0); unfold ret in H; now injection H.
  - destruct (r <? 0) eqn:E; unfold ret in H; injection H as <- <- _.
    + split; [now apply Z.ltb_lt | reflexivity].
    + apply Z.ltb_ge in E. simpl. auto.
Qed.

(** The cursor along a lifetime, before any range assumption. *)
Lemma WriteHistory_cursor bs this :
  WriteHistory bs this ->
  Forall (fun b => 0 <= b) bs /\
  WriteFileImpl.offs_ this = to_off_t (sum_counts bs).
Proof.
  induction 1 as [name
                 | bs this flags w ec this' w' _ [IHnn IH] Hcall
                 | bs this w ec this' w' _ [IHnn IH] Hcall
                 | bs this v w b this' w' _ [IHnn IH] Hcall
                 | bs this v w ec this' w' _ [IHnn IH] Hcall].
  - split; [constructor | reflexivity].
  - split; [assumption|].
    unfold WriteFileImpl.Open in Hcall.
    apply bind_Ret in Hcall as (u & w1 & _ & Hcall).
    apply bind_Ret in Hcall as (r & w2 & _ & Hcall).
    destruct (r <? 0); unfold ret in Hcall; injection Hcall as _ <- _;
      simpl; assumption.
  - split; [assumption|].
    apply WriteFileImpl_Close_fd in Hcall as [_ ->]. assumption.
  - apply WriteSome_Ret in Hcall as (r & _ & _ & Hb & Hoffs). split.
    + apply Forall_app. split; [assumption | repeat constructor; assumption].
    + rewrite Hoffs, IH. unfold to_off_t.
      rewrite to_ssize_t_add_ssize, sum_counts_app. simpl.
      f_equal. lia.
  - apply WriteSome_Ret in Hcall as (r & _ & _ & ->). auto.
Qed.

(** C3. Write cursor correctness.  After any lifetime of a write
    abstraction (construction, then [Open], [Close] and [WriteSome]
    calls in any order) whose successful [WriteSome] calls returned the
    byte counts [bs], with a sum that fits [off_t]: the cursor equals
    the sum of [bs]; the next [WriteSome] submits its write at that
    offset; if it returns an error the cursor is unchanged, and if it
    returns [b] the cursor is the sum plus [b]. *)
Theorem write_cursor_is_sum bs this :
  WriteHistory bs this ->
  sum_counts bs <= SSIZE_MAX ->
  WriteFileImpl.offs_ this = sum_counts bs /\
  forall v w res this' w',
    WriteFileImpl.WriteSome this v w = Ret (res, this') w' ->
    (exists r,
       submitted w' = submitted w ++
         [(PrepWriteV (WriteFileImpl.fd_ this) v (sum_counts bs) 0, r)]) /\
    match res with
    | Ok b =>
        sum_counts bs + b <= SSIZE_MAX ->
        WriteFileImpl.offs_ this' = sum_counts bs + b
    | Unexpected _ => WriteFileImpl.offs_ this' = sum_counts bs
    end.
Proof.
  intros Hh Hmax.
  destruct (WriteHistory_cursor _ _ Hh) as [Hnn Hoffs].
  pose proof (sum_counts_nonneg _ Hnn) as Hsum.
  assert (Hcur : WriteFileImpl.offs_ this = sum_counts bs).
  { rewrite Hoffs. apply to_ssize_t_id. lia. }
  split; [assumption|].
  intros v w res this' w' Hcall.
  apply WriteSome_Ret in Hcall as (r & -> & Hres). split.
  - exists r. rewrite Hcur. reflexivity.
  - destruct res as [b|ec].
    + destruct Hres as (_ & Hb & ->). intros Hfit.
      rewrite Hcur. apply to_ssize_t_id. lia.
    + destruct Hres as [_ ->]. assumption.
Qed.

Lemma write_cursor_is_sum_witness :
  exists this,
    WriteHistory [5; 7] this /\
    WriteFileImpl.offs_ this = 12 /\
    forall v w res this' w',
      WriteFileImpl.WriteSome this v w = Ret (res, this') w' ->
      exists r,
        submitted w' = submitted w ++
          [(PrepWriteV (WriteFileImpl.fd_ this) v 12 0, r)].
Proof.
  set (w := example_world [4; 5; -28; 7]).
  set (buf := [mk_iovec 1000 16]).
  set (t0 := WriteFileImpl.new "f").
  set (t1 := WriteFileImpl.mk "f" 4 0).
  set (t2 := WriteFileImpl.mk "f" 4 5).
  set (t3 := WriteFileImpl.mk "f" 4 12).
  assert (H0 : WriteHistory [] t0) by constructor.
  assert (H1 : WriteHistory [] t1).
  { apply (WH_Open [] t0 577 w ec_ok t1
             (completed (PrepOpenAt (-100) "f" 577 420) 4 w) H0).
    reflexivity. }
  assert (H2 : WriteHistory [5] t2).
  { apply (WH_WriteSome_ok [] t1 buf (example_world [5]) 5 t2
             (completed (PrepWriteV 4 buf 0 0) 5 (example_world [5])) H1).
    reflexivity. }
  assert (H2e : WriteHistory [5] t2).
  { apply (WH_WriteSome_err [5] t2 buf (example_world [-28])
             (mk_error_code 28) t2
             (completed (PrepWriteV 4 buf 5 0) (-28) (example_world [-28]))
             H2).
    reflexivity. }
  assert (H3 : WriteHistory [5; 7] t3).
  { apply (WH_WriteSome_ok [5] t2 buf (example_world [7]) 7 t3
             (completed (PrepWriteV 4 buf 5 0) 7 (example_world [7])) H2e).
    reflexivity. }
  exists t3. split; [assumption|].
  assert (Hfit : sum_counts [5; 7] <= SSIZE_MAX) by (vm_compute; discriminate).
  destruct (write_cursor_is_sum [5; 7] t3 H3 Hfit) as [Hc Hn].
  split; [exact Hc|].
  intros v w0 res this' w' Hcall.
  exact (proj1 (Hn v w0 res this' w' Hcall)).
Defined.

(** ** The size of a read-only file *)

Lemma sys_fstat_Ret fd w rc st_size w' :
  sys_fstat fd w = Ret (rc, st_size) w' ->
  fstat_of w' = fstat_of w /\
  ((rc = 0 /\ fstat_of w fd = inl st_size) \/
   (rc = -1 /\ exists e, fstat_of w fd = inr e /\ errno w' = e)).
Proof.
  unfold sys_fstat. destruct (fstat_of w fd) as [sz|e] eqn:E;
    intros [= <- <- <-]; simpl; split; auto.
  right. split; [reflexivity | now exists e].
Qed.

Lemma current_proactor_Ret w u w' :
  current_proactor w = Ret u w' -> w' = w /\ me w = Some IOURING.
Proof.
  unfold current_proactor.
  destruct (me w) as [[|]|]; destruct (DCHECK_IS_ON w); try discriminate;
    intros [= _ ->]; auto.
Qed.

(** What a successful [OpenRead] returns. *)
Lemma OpenRead_Ok path w f w' :
  OpenRead path w = Ret (Ok f) w' ->
  exists st_size,
    fstat_of w (ReadFileImpl.fd_ f) = inl st_size /\
    ReadFileImpl.file_size_ f = to_size_t st_size /\
    0 <= ReadFileImpl.fd_ f.
Proof.
  unfold OpenRead. intros H.
  apply bind_Ret in H as (u & w1 & Hme & H).
  apply current_proactor_Ret in Hme as [-> _].
  apply bind_Ret in H as (fd & w2 & Hopen & H).
  apply FiberCall_Get_Ret in Hopen as [_ ->].
  destruct (fd <? 0) eqn:Hfd; [discriminate|]. apply Z.ltb_ge in Hfd.
  apply bind_Ret in H as ([rc sz] & w3 & Hstat & H).
  apply sys_fstat_Ret in Hstat as [Hsame Hstat].
  destruct Hstat as [[-> Hsz] | [-> _]].
  - simpl in H.
    apply bind_Ret in H as (r & w4 & _ & H).
    destruct (r <? 0).
    + apply bind_Ret in H as (e & w5 & _ & H).
      apply bind_Ret in H as (c & w6 & _ & H). discriminate.
    + unfold ret in H. injection H as <- _. simpl. eauto.
  - simpl in H.
    apply bind_Ret in H as (e & w5 & _ & H).
    apply bind_Ret in H as (c & w6 & _ & H). discriminate.
Qed.

Lemma ReadFileImpl_Read_this this offset v w res this' w' :
  ReadFileImpl.Read this offset v w = Ret (res, this') w' -> this' = this.
Proof.
  unfold ReadFileImpl.Read. intros H.
  apply bind_Ret in H as (u & w1 & _ & H).
  destruct (iovcnt v =? 0).
  - unfold ret in H. now injection H.
  - apply bind_Ret in H as (r & w2 & _ & H).
    unfold ret in H. now injection H.
Qed.

Lemma ReadLifetime_size this0 this :
  ReadLifetime this0 this ->
  ReadFileImpl.Size this = ReadFileImpl.Size this0.
Proof.
  induction 1 as [this
                 | this0 this offset v w res this' w' _ IH Hcall
                 | this0 this w ec this' w' _ IH Hcall].
  - reflexivity.
  - apply ReadFileImpl_Read_this in Hcall. now subst.
  - apply ReadFileImpl_Close_fd in Hcall as [_ Hsz].
    unfold ReadFileImpl.Size in *. congruence.
Qed.

(** C7. Read size invariant.  The file that [OpenRead] returns has
    as [Size()] the [st_size] that [fstat] reported for its descriptor
    in the world at open time, and after any sequence of [Read] and
    [Close] calls on it, in whatever worlds they run, [Size()] is
    still that value. *)
Theorem read_size_is_fixed path w f w' f' :
  OpenRead path w = Ret (Ok f) w' ->
  ReadLifetime f f' ->
  exists st_size,
    fstat_of w (ReadFileImpl.Handle f) = inl st_size /\
    ReadFileImpl.Size f = to_size_t st_size /\
    ReadFileImpl.Size f' = ReadFileImpl.Size f /\
    (0 <= st_size <= SSIZE_MAX -> ReadFileImpl.Size f' = st_size).
Proof.
  intros Hopen Hlife.
  apply OpenRead_Ok in Hopen as (sz & Hstat & Hsize & _).
  pose proof (ReadLifetime_size _ _ Hlife) as Hsame.
  exists sz. unfold ReadFileImpl.Handle, ReadFileImpl.Size in *.
  repeat split; try assumption.
  intros Hrange. rewrite Hsame, Hsize. apply to_size_t_id.
  unfold SSIZE_MAX in Hrange. lia.
Qed.

Lemma read_size_is_fixed_witness :
  exists f f',
    ReadLifetime f f' /\
    ReadFileImpl.Handle f' = -1 /\
    ReadFileImpl.Size f = 10 /\
    ReadFileImpl.Size f' = 10.
Proof.
  set (w := example_world [3; 0]).
  set (f := ReadFileImpl.mk 3 10).
  set (buf := [mk_iovec 1000 4]).
  set (f' := ReadFileImpl.mk (-1) 10).
  assert (Hopen : exists w', OpenRead "f" w = Ret (Ok f) w')
    by (eexists; cbv; reflexivity).
  destruct Hopen as [w' Hopen].
  assert (Hlife : ReadLifetime f f').
  { apply (RL_Close f f (example_world [0]) ec_ok f'
             (completed (PrepClose 3) 0 (example_world [0]))); [|reflexivity].
    apply (RL_Read f f 0 buf (example_world [4]) (Ok 4) f
             (completed (PrepReadV 3 buf 0 0) 4 (example_world [4])));
      [constructor | reflexivity]. }
  exists f, f'. split; [assumption|]. split; [reflexivity|].
  destruct (read_size_is_fixed "f" w f w' f' Hopen Hlife)
    as (sz & Hstat & Hsize & Hsame & Hval).
  simpl in Hstat. injection Hstat as <-.
  split; [exact Hsize|].
  apply Hval. unfold SSIZE_MAX. lia.
Defined.

(** ** The cleanup paths of [OpenRead] *)

(** When [fstat] fails, the descriptor is closed with [close(2)] and
    the error is the [errno] that [fstat] set, whether or not the
    [close] fails too. *)
Lemma OpenRead_fstat_failure path w fd rest e :
  me w = Some IOURING ->
  completions w = fd :: rest -> 0 <= fd ->
  fstat_of w fd = inr e ->
  exists w',
    OpenRead path w = Ret (Unexpected (mk_error_code e)) w' /\
    syscalls w' = syscalls w ++ [SysFstat fd; SysClose fd] /\
    submitted w' =
      submitted w ++
        [(PrepOpenAt AT_FDCWD path (Z.lor O_RDONLY O_CLOEXEC) 0, fd)].
Proof.
  intros Hme Hc Hfd Hstat.
  unfold OpenRead, bind at 1, current_proactor. rewrite Hme.
  rewrite (bind_of_Ret _ _ _ _ _ (FiberCall_Get_next _ _ _ _ Hc)).
  apply Z.ltb_ge in Hfd. rewrite Hfd.
  unfold bind, sys_fstat, completed. cbn [fstat_of]. rewrite Hstat.
  cbn -[Z.lor]. unfold sys_close. cbn -[Z.lor].
  destruct (close_of w fd); eexists; (split; [reflexivity|]);
    cbn -[Z.lor]; rewrite <- app_assoc; auto.
Qed.

(** When the advisory fails with [r < 0], the descriptor is closed with
    [close(2)], and the error that is returned carries the value that
    [errno] had when [fc.Get()] returned: [r] does not enter it. *)
Lemma OpenRead_fadvise_failure path w fd r rest st_size :
  me w = Some IOURING ->
  completions w = fd :: r :: rest -> 0 <= fd ->
  fstat_of w fd = inl st_size ->
  r < 0 ->
  exists w',
    OpenRead path w = Ret (Unexpected (mk_error_code (errno w))) w' /\
    syscalls w' = syscalls w ++ [SysFstat fd; SysClose fd].
Proof.
  intros Hme Hc Hfd Hstat Hr.
  unfold OpenRead, bind at 1, current_proactor. rewrite Hme.
  rewrite (bind_of_Ret _ _ _ _ _ (FiberCall_Get_next _ _ _ _ Hc)).
  apply Z.ltb_ge in Hfd. rewrite Hfd.
  unfold bind at 1, sys_fstat, completed. cbn [fstat_of]. rewrite Hstat.
  cbn -[Z.lor bind]. unfold bind at 1, FiberCall_Get.
  cbn [completions]. rewrite Hc. cbn [tl].
  apply Z.ltb_lt in Hr. rewrite Hr.
  unfold bind, get_errno, sys_close. cbn -[Z.lor].
  destruct (close_of w fd); eexists; (split; [reflexivity|]);
    cbn -[Z.lor]; rewrite <- app_assoc; auto.
Qed.

(** C6. [OpenRead] when the advisory fails.  The open completes with
    descriptor 3, [fstat] succeeds, and the engine completes
    [PrepFadvise] with [-22].  Whatever value [e0] the thread's [errno]
    holds, the call closes descriptor 3 with [close(2)] and returns the
    error with code [e0], not 22: with [errno = 0] the code is 0. *)
Theorem open_read_advise_error_is_errno (e0 : Z) :
  let w := mk_World [3; -22] [] e0 (fun _ => inl 10) (fun _ => None) []
             (Some IOURING) true in
  exists w',
    OpenRead "f" w = Ret (Unexpected (mk_error_code e0)) w' /\
    submitted w' =
      [(PrepOpenAt AT_FDCWD "f" (Z.lor O_RDONLY O_CLOEXEC) 0, 3);
       (PrepFadvise 3 0 0 POSIX_FADV_SEQUENTIAL, -22)] /\
    syscalls w' = [SysFstat 3; SysClose 3].
Proof.
  intros w. subst w. eexists. split; [cbv; reflexivity|].
  repeat split.
Qed.

(** ** Accounting of the exact-transfer read *)

Lemma accounts_prefix rt rt' l1 l2 res :
  Forall (fun x => 0 <= snd x) l1 ->
  to_size_t rt' = to_size_t (rt + sum_results l1) ->
  accounts rt' l2 res ->
  accounts rt (l1 ++ l2) res.
Proof.
  intros Hnn Hrt. destruct res as [n|ec]; simpl.
  - intros [-> Hl2]. split; [|now apply Forall_app].
    rewrite sum_results_app.
    transitivity (to_size_t (sum_results l2 + to_size_t rt')).
    + rewrite to_size_t_add_size. f_equal. lia.
    + rewrite Hrt, to_size_t_add_size. f_equal. lia.
  - intros (pre & op & r & -> & Hr & ->).
    exists (l1 ++ pre), op, r. now rewrite app_assoc.
Qed.

Lemma ReadAll_loop_accounts fuel :
  forall fd offset next len rt w res w',
    ReadAll_loop fuel fd offset next len rt w = Ret res w' ->
    exists new, Delivered w new w' /\ accounts rt new res.
Proof.
  induction fuel as [|fuel IH]; intros fd offset next len rt w res w' H;
    [discriminate|].
  cbn [ReadAll_loop] in H.
  apply bind_Ret in H as (r & w1 & Hget & H).
  apply FiberCall_Get_Ret in Hget as [Hc ->].
  assert (Hd : Delivered w [(PrepRead fd next len offset, r)]
                 (completed (PrepRead fd next len offset) r w)).
  { apply Delivered_completed. rewrite Hc. reflexivity. }
  destruct (r <? 0) eqn:Hneg.
  { unfold ret in H. injection H as <- <-. eexists. split; [exact Hd|].
    apply Z.ltb_lt in Hneg. now exists [], (PrepRead fd next len offset), r. }
  apply Z.ltb_ge in Hneg.
  destruct (r =? 0) eqn:Hz.
  { unfold ret in H. injection H as <- <-. eexists. split; [exact Hd|].
    apply Z.eqb_eq in Hz. subst r. simpl. split.
    - f_equal. lia.
    - repeat constructor. simpl. lia. }
  destruct (to_size_t (to_ssize_t (rt + r)) =? len).
  { unfold ret in H. injection H as <- <-. eexists. split; [exact Hd|].
    simpl. split.
    - rewrite to_size_t_ssize. f_equal. lia.
    - repeat constructor. simpl. lia. }
  apply IH in H as (new & Hd' & Hacc).
  exists ([(PrepRead fd next len offset, r)] ++ new). split.
  - eapply Delivered_trans; eassumption.
  - apply (accounts_prefix rt (to_ssize_t (rt + r))); [| |assumption].
    + repeat constructor. simpl. lia.
    + rewrite to_size_t_ssize. simpl. f_equal. lia.
Qed.

Lemma ReadAll_accounts fd offset next len w res w' :
  ReadAll fd offset next len w = Ret res w' ->
  exists new, Delivered w new w' /\ accounts 0 new res.
Proof.
  unfold ReadAll. intros H.
  apply bind_Ret in H as (u & w1 & Hd & H). apply DCHECK_Ret in Hd as [_ ->].
  now apply ReadAll_loop_accounts in H.
Qed.

Lemma ReadSomeInternal_Ret fd iov offset flags w res w' :
  ReadSomeInternal fd iov offset flags w = Ret res w' ->
  exists r,
    w' = completed (PrepReadV fd iov offset flags) r w /\
    completions w = r :: completions w' /\
    res = (if r <? 0 then Unexpected (mk_error_code (- r)) else Ok r).
Proof.
  unfold ReadSomeInternal. intros H.
  apply bind_Ret in H as (u1 & w1 & H1 & H). apply CHECK_Ret in H1 as [_ ->].
  apply bind_Ret in H as (u2 & w2 & H2 & H). apply CHECK_Ret in H2 as [_ ->].
  apply bind_Ret in H as (r & w3 & H3 & H).
  apply FiberCall_Get_Ret in H3 as [E ->]. exists r.
  destruct (r <? 0); unfold ret in H; injection H as <- <-; auto.
Qed.

Lemma accounts_prefix_err rt rt' l1 l2 ec :
  accounts rt' l2 (Unexpected ec) ->
  accounts rt (l1 ++ l2) (Unexpected ec).
Proof.
  simpl. intros (pre & op & r & -> & Hr & ->).
  exists (l1 ++ pre), op, r. now rewrite app_assoc.
Qed.

Lemma accounts_done rt rt' l :
  Forall (fun x => 0 <= snd x) l ->
  to_size_t rt' = to_size_t (rt + sum_results l) ->
  accounts rt l (Ok (to_size_t rt')).
Proof.
  intros Hnn Hrt. rewrite <- (app_nil_r l).
  apply (accounts_prefix rt rt'); [assumption | assumption |].
  simpl. split; [f_equal; lia | constructor].
Qed.

(** The running total after a completed [ReadAll]. *)
Lemma running_total_after_block rt r n block :
  n = to_size_t (0 + sum_results block) ->
  to_size_t (to_ssize_t (to_ssize_t (rt + r) + n))
    = to_size_t (rt + (r + sum_results block)).
Proof.
  intros ->. rewrite to_size_t_ssize, to_size_t_add_size, to_size_t_add_ssize.
  f_equal. lia.
Qed.

Lemma Read_loop_accounts fuel :
  forall fd offset v rt w res w',
    ReadFileImpl.Read_loop fuel fd offset v rt w = Ret res w' ->
    exists new, Delivered w new w' /\ accounts rt new res.
Proof.
  induction fuel as [|fuel IH]; intros fd offset v rt w res w' H;
    [discriminate|].
  cbn [ReadFileImpl.Read_loop] in H.
  apply bind_Ret in H as (res0 & w1 & Hrs & H).
  apply ReadSomeInternal_Ret in Hrs as (r & -> & Hc & ->).
  set (op := PrepReadV fd v (to_off_t (offset + rt)) 0) in *.
  assert (Hd : Delivered w [(op, r)] (completed op r w)).
  { apply Delivered_completed. rewrite Hc. reflexivity. }
  destruct (r <? 0) eqn:Hneg.
  { unfold ret in H. injection H as <- <-. eexists. split; [exact Hd|].
    apply Z.ltb_lt in Hneg. now exists [], op, r. }
  apply Z.ltb_ge in Hneg.
  assert (Hnn : Forall (fun x : Op * IoResult => 0 <= snd x) [(op, r)])
    by (repeat constructor; assumption).
  destruct (r =? 0) eqn:Hz.
  { unfold ret in H. injection H as <- <-. eexists. split; [exact Hd|].
    apply Z.eqb_eq in Hz. subst r.
    apply accounts_done; [assumption | simpl; f_equal; lia]. }
  assert (Hrt1 : to_size_t (to_ssize_t (rt + r))
                 = to_size_t (rt + sum_results [(op, r)])).
  { rewrite to_size_t_ssize. simpl. f_equal. lia. }
  destruct (skip_completed v r) as [v1 part].
  destruct (0 <? part).
  - apply bind_Ret in H as (u & w2 & Hdc & H).
    apply DCHECK_Ret in Hdc as [_ ->].
    destruct v1 as [|e v']; [discriminate|].
    apply bind_Ret in H as (res1 & w3 & Hall & H).
    apply ReadAll_accounts in Hall as (block & Hdb & Hacc).
    pose proof (Delivered_trans _ _ _ _ _ Hd Hdb) as Hd2.
    destruct res1 as [n|ec].
    + destruct Hacc as [Hn Hbnn].
      assert (Hnn2 : Forall (fun x : Op * IoResult => 0 <= snd x)
                       ([(op, r)] ++ block))
        by (apply Forall_app; split; assumption).
      assert (Hrt2 : to_size_t (to_ssize_t (to_ssize_t (rt + r) + n))
                     = to_size_t (rt + sum_results ([(op, r)] ++ block))).
      { rewrite (running_total_after_block rt r n block Hn). reflexivity. }
      destruct (n <? iov_len e - part).
      { unfold ret in H. injection H as <- <-. eexists. split; [exact Hd2|].
        now apply accounts_done. }
      destruct (0 <? iovcnt v').
      * apply IH in H as (rest & Hd3 & Hacc3).
        exists (([(op, r)] ++ block) ++ rest). split.
        -- eapply Delivered_trans; eassumption.
        -- eapply accounts_prefix; eassumption.
      * unfold ret in H. injection H as <- <-. eexists. split; [exact Hd2|].
        now apply accounts_done.
    + unfold ret in H. injection H as <- <-. eexists. split; [exact Hd2|].
      eapply accounts_prefix_err. exact Hacc.
  - destruct (0 <? iovcnt v1).
    + apply IH in H as (rest & Hd3 & Hacc3).
      exists ([(op, r)] ++ rest). split.
      * eapply Delivered_trans; eassumption.
      * eapply accounts_prefix; eassumption.
    + unfold ret in H. injection H as <- <-. eexists. split; [exact Hd|].
      now apply accounts_done.
Qed.

(** Every byte count the engine delivers during a [Read] enters the
    result once: a success is the sum of all completions of the call,
    an error is the negation of its last completion. *)
Lemma ReadFileImpl_Read_accounts this offset v w res this' w' :
  ReadFileImpl.Read this offset v w = Ret (res, this') w' ->
  exists new, Delivered w new w' /\ accounts 0 new res.
Proof.
  unfold ReadFileImpl.Read. intros H.
  apply bind_Ret in H as (u & w1 & Hd & H). apply DCHECK_Ret in Hd as [_ ->].
  destruct (iovcnt v =? 0).
  - unfold ret in H. injection H as <- _ <-. exists []. split.
    + apply Delivered_nil.
    + simpl. split; [reflexivity | constructor].
  - apply bind_Ret in H as (r & w2 & Hloop & H).
    unfold ret in H. injection H as <- _ <-.
    now apply Read_loop_accounts in Hloop.
Qed.

(** ** The loop bounds of the model are never reached *)

Lemma bind_OutOfFuel {A B} (m : M A) (k : A -> M B) w :
  m w <> OutOfFuel ->
  (forall a w1, m w = Ret a w1 -> k a w1 <> OutOfFuel) ->
  bind m k w <> OutOfFuel.
Proof.
  unfold bind. intros Hm Hk.
  destruct (m w) as [a w1| | | |]; try discriminate; [now apply Hk | congruence].
Qed.

Lemma ReadAll_loop_fuel fuel :
  forall fd offset next len rt w,
    (List.length (completions w) < fuel)%nat ->
    ReadAll_loop fuel fd offset next len rt w <> OutOfFuel.
Proof.
  induction fuel as [|fuel IH]; intros fd offset next len rt w Hlen; [lia|].
  cbn [ReadAll_loop]. apply bind_OutOfFuel.
  - unfold FiberCall_Get. destruct (completions w); discriminate.
  - intros r w1 Hget. apply FiberCall_Get_Ret in Hget as [Hc ->].
    destruct (r <? 0); [discriminate|].
    destruct (r =? 0); [discriminate|].
    destruct (_ =? len); [discriminate|].
    apply IH. unfold completed. cbn [completions].
    rewrite Hc in *. simpl in *. lia.
Qed.

Lemma ReadAll_fuel fd offset next len w :
  ReadAll fd offset next len w <> OutOfFuel.
Proof.
  unfold ReadAll. apply bind_OutOfFuel.
  - unfold DCHECK. destruct (_ && _); discriminate.
  - intros u w1 _. apply ReadAll_loop_fuel. lia.
Qed.

Lemma skip_completed_length v :
  forall read v1 part,
    skip_completed v read = (v1, part) ->
    (v1 = v /\ part = read) \/ (List.length v1 < List.length v)%nat.
Proof.
  induction v as [|e v IH]; intros read v1 part H; simpl in H.
  - injection H as <- <-. auto.
  - destruct (iov_len e <=? read).
    + right. apply IH in H as [[-> _]|H]; simpl; lia.
    + injection H as <- <-. auto.
Qed.

Lemma ReadSomeInternal_fuel fd v offset flags w :
  ReadSomeInternal fd v offset flags w <> OutOfFuel.
Proof.
  unfold ReadSomeInternal, bind, CHECK, FiberCall_Get.
  destruct (0 <=? fd); [|discriminate].
  destruct (0 <? iovcnt v); [|discriminate].
  destruct (completions w); [discriminate|].
  destruct (_ <? 0); discriminate.
Qed.

Lemma iovcnt_pos_length v : (0 <? iovcnt v) = true -> (0 < List.length v)%nat.
Proof. unfold iovcnt. intros H. apply Z.ltb_lt in H. lia. Qed.

Lemma Read_loop_fuel fuel :
  forall fd offset v rt w,
    (0 < List.length v <= fuel)%nat ->
    ReadFileImpl.Read_loop fuel fd offset v rt w <> OutOfFuel.
Proof.
  induction fuel as [|fuel IH]; intros fd offset v rt w Hlen; [lia|].
  cbn [ReadFileImpl.Read_loop]. apply bind_OutOfFuel.
  { apply ReadSomeInternal_fuel. }
  intros res w1 Hrs. apply ReadSomeInternal_Ret in Hrs as (r & _ & _ & ->).
  destruct (r <? 0) eqn:Hneg; [discriminate|].
  destruct (r =? 0) eqn:Hz; [discriminate|].
  apply Z.ltb_ge in Hneg. apply Z.eqb_neq in Hz.
  destruct (skip_completed v r) as [v1 part] eqn:Hskip.
  apply skip_completed_length in Hskip.
  destruct (0 <? part) eqn:Hpart.
  - apply bind_OutOfFuel.
    { unfold DCHECK. destruct (_ && _); discriminate. }
    intros u w2 _. destruct v1 as [|e v']; [discriminate|].
    apply bind_OutOfFuel; [apply ReadAll_fuel|].
    intros [n|ec] w3 _; [|discriminate].
    destruct (n <? _); [discriminate|].
    destruct (0 <? iovcnt v') eqn:Hcnt; [|discriminate].
    apply IH. apply iovcnt_pos_length in Hcnt.
    destruct Hskip as [[<- _]|Hskip]; simpl in *; lia.
  - destruct (0 <? iovcnt v1) eqn:Hcnt; [|discriminate].
    apply IH. apply iovcnt_pos_length in Hcnt.
    apply Z.ltb_ge in Hpart.
    destruct Hskip as [[_ ->]|Hskip]; lia.
Qed.

(** [Read] ends in one of the outcomes of the code: the bounds that the
    model puts on the two loops are never exhausted. *)
Lemma ReadFileImpl_Read_fuel this offset v w :
  ReadFileImpl.Read this offset v w <> OutOfFuel.
Proof.
  unfold ReadFileImpl.Read. apply bind_OutOfFuel.
  { unfold DCHECK. destruct (_ && _); discriminate. }
  intros u w1 _. destruct (iovcnt v =? 0) eqn:Hz; [discriminate|].
  apply bind_OutOfFuel; [|discriminate].
  apply Read_loop_fuel. apply Z.eqb_neq in Hz. unfold iovcnt in Hz. lia.
Qed.

Lemma Delivered_unique w new1 new2 w' :
  Delivered w new1 w' -> Delivered w new2 w' -> new1 = new2.
Proof.
  intros (S1 & _) (S2 & _). rewrite S1 in S2.
  now apply app_inv_head in S2.
Qed.

Lemma Delivered_split w l1 w1 l2 w2 new :
  Delivered w l1 w1 -> Delivered w1 l2 w2 -> Delivered w new w2 ->
  new = l1 ++ l2.
Proof.
  intros H1 H2 H. eapply Delivered_unique; [exact H|].
  eapply Delivered_trans; eassumption.
Qed.

(** ** A zero-byte vectored read is the last operation of a call *)

Lemma ReadAll_loop_ops fuel :
  forall fd offset next len rt w res w' new,
    ReadAll_loop fuel fd offset next len rt w = Ret res w' ->
    Delivered w new w' ->
    Forall (fun x => is_readv (fst x) = false) new.
Proof.
  induction fuel as [|fuel IH];
    intros fd offset next len rt w res w' new H Hd; [discriminate|].
  cbn [ReadAll_loop] in H.
  apply bind_Ret in H as (r & w1 & Hget & H).
  apply FiberCall_Get_Ret in Hget as [Hc ->].
  set (op := PrepRead fd next len offset) in *.
  assert (Hd1 : Delivered w [(op, r)] (completed op r w)).
  { apply Delivered_completed. rewrite Hc. reflexivity. }
  assert (Hone : Forall (fun x => is_readv (fst x) = false) [(op, r)])
    by (repeat constructor).
  destruct (r <? 0);
    [unfold ret in H; injection H as _ <-;
     now rewrite (Delivered_unique _ _ _ _ Hd Hd1)|].
  destruct (r =? 0);
    [unfold ret in H; injection H as _ <-;
     now rewrite (Delivered_unique _ _ _ _ Hd Hd1)|].
  destruct (_ =? len);
    [unfold ret in H; injection H as _ <-;
     now rewrite (Delivered_unique _ _ _ _ Hd Hd1)|].
  destruct (ReadAll_loop_accounts _ _ _ _ _ _ _ _ _ H) as (new' & Hd2 & _).
  rewrite (Delivered_split _ _ _ _ _ _ Hd1 Hd2 Hd).
  apply Forall_app. split; [assumption|].
  eapply IH; eassumption.
Qed.

Lemma ReadAll_ops fd offset next len w res w' new :
  ReadAll fd offset next len w = Ret res w' ->
  Delivered w new w' ->
  Forall (fun x => is_readv (fst x) = false) new.
Proof.
  unfold ReadAll. intros H Hd.
  apply bind_Ret in H as (u & w1 & Hdc & H). apply DCHECK_Ret in Hdc as [_ ->].
  eapply ReadAll_loop_ops; eassumption.
Qed.

(** An element that satisfies [p] lies behind a prefix without any. *)
Lemma split_behind_prefix {A} (p : A -> bool) (block : list A) :
  forall rest pre x post,
    Forall (fun y => p y = false) block ->
    p x = true ->
    block ++ rest = pre ++ x :: post ->
    exists pre', pre = block ++ pre' /\ rest = pre' ++ x :: post.
Proof.
  induction block as [|b block IH]; intros rest pre x post Hb Hx E.
  - exists pre. auto.
  - inversion Hb as [|? ? Hpb Hblock]; subst.
    destruct pre as [|y pre]; simpl in E.
    + injection E as -> _. congruence.
    + injection E as <- E.
      destruct (IH _ _ _ _ Hblock Hx E) as (pre' & -> & ->).
      now exists pre'.
Qed.

Lemma Read_loop_eof_last fuel :
  forall fd offset v rt w res w' new pre op post,
    ReadFileImpl.Read_loop fuel fd offset v rt w = Ret res w' ->
    Delivered w new w' ->
    new = pre ++ (op, 0) :: post ->
    is_readv op = true ->
    post = [] /\ res = Ok (to_size_t (rt + sum_results pre)).
Proof.
  induction fuel as [|fuel IH];
    intros fd offset v rt w res w' new pre op post H Hd Hnew Hop;
    [discriminate|].
  cbn [ReadFileImpl.Read_loop] in H.
  apply bind_Ret in H as (res0 & w1 & Hrs & H).
  apply ReadSomeInternal_Ret in Hrs as (r & -> & Hc & ->).
  set (op0 := PrepReadV fd v (to_off_t (offset + rt)) 0) in *.
  assert (Hd1 : Delivered w [(op0, r)] (completed op0 r w)).
  { apply Delivered_completed. rewrite Hc. reflexivity. }
  (* the calls that end after this one operation *)
  assert (Hlast : new = [(op0, r)] -> r <> 0 -> False).
  { intros E Hr. rewrite E in Hnew.
    destruct pre as [|y [|z pre]]; simpl in Hnew; try discriminate.
    injection Hnew as Hnew. congruence. }
  destruct (r <? 0) eqn:Hneg.
  { unfold ret in H. injection H as _ <-. apply Z.ltb_lt in Hneg.
    exfalso. apply Hlast; [eapply Delivered_unique; eassumption | lia]. }
  apply Z.ltb_ge in Hneg.
  destruct (r =? 0) eqn:Hz.
  { apply Z.eqb_eq in Hz. subst r. unfold ret in H. injection H as <- <-.
    rewrite (Delivered_unique _ _ _ _ Hd Hd1) in Hnew.
    destruct pre as [|y [|z pre]]; simpl in Hnew; try discriminate.
    injection Hnew as _ <-. simpl. split; [reflexivity|].
    do 2 f_equal. lia. }
  apply Z.eqb_neq in Hz.
  (* otherwise the zero-byte read lies behind the first operation *)
  assert (Hbehind : forall new1, new = [(op0, r)] ++ new1 ->
            exists pre1, pre = (op0, r) :: pre1 /\
                         new1 = pre1 ++ (op, 0) :: post).
  { intros new1 E. rewrite E in Hnew.
    destruct pre as [|y pre]; simpl in Hnew.
    - injection Hnew as _ Hr _. congruence.
    - injection Hnew as <- Hnew. now exists pre. }
  destruct (skip_completed v r) as [v1 part].
  destruct (0 <? part).
  - apply bind_Ret in H as (u & w2 & Hdc & H).
    apply DCHECK_Ret in Hdc as [_ ->].
    destruct v1 as [|e v']; [discriminate|].
    apply bind_Ret in H as (res1 & w3 & Hall & H).
    destruct (ReadAll_accounts _ _ _ _ _ _ _ Hall) as (block & Hdb & Hacc).
    pose proof (ReadAll_ops _ _ _ _ _ _ _ _ Hall Hdb) as Hops.
    pose proof (Delivered_trans _ _ _ _ _ Hd1 Hdb) as Hd2.
    (* calls that end with the retry loop submit no vectored read *)
    assert (Hend : new = [(op0, r)] ++ block -> False).
    { intros E. destruct (Hbehind _ E) as (pre1 & _ & Hblock).
      rewrite Hblock in Hops. apply Forall_app in Hops as [_ Hops].
      inversion Hops as [|? ? Hx _]; subst. simpl in Hx. congruence. }
    destruct res1 as [n|ec].
    + destruct Hacc as [Hn _].
      destruct (n <? iov_len e - part).
      { unfold ret in H. injection H as _ <-. exfalso. apply Hend.
        eapply Delivered_unique; eassumption. }
      destruct (0 <? iovcnt v').
      * destruct (Read_loop_accounts _ _ _ _ _ _ _ _ H) as (rest & Hd3 & _).
        pose proof (Delivered_split _ _ _ _ _ _ Hd2 Hd3 Hd) as E.
        rewrite <- app_assoc in E.
        destruct (Hbehind _ E) as (pre1 & -> & Hsplit).
        destruct (split_behind_prefix (fun x => is_readv (fst x)) block
                    rest pre1 (op, 0) post Hops Hop Hsplit)
          as (pre2 & -> & Hrest).
        destruct (IH _ _ _ _ _ _ _ _ _ _ _ H Hd3 Hrest Hop) as [-> ->].
        split; [reflexivity|]. f_equal.
        change ((op0, r) :: block ++ pre2)
          with (([(op0, r)] ++ block) ++ pre2).
        rewrite !sum_results_app.
        rewrite to_size_t_add_ssize.
        replace (to_ssize_t (rt + r) + n + sum_results pre2)
          with (to_ssize_t (rt + r) + (n + sum_results pre2)) by lia.
        rewrite to_size_t_add_ssize.
        replace (rt + r + (n + sum_results pre2))
          with (rt + r + sum_results pre2 + n) by lia.
        rewrite Hn, to_size_t_add_size. simpl. f_equal. lia.
      * unfold ret in H. injection H as _ <-. exfalso. apply Hend.
        eapply Delivered_unique; eassumption.
    + unfold ret in H. injection H as _ <-. exfalso. apply Hend.
      eapply Delivered_unique; eassumption.
  - destruct (0 <? iovcnt v1).
    + destruct (Read_loop_accounts _ _ _ _ _ _ _ _ H) as (rest & Hd3 & _).
      pose proof (Delivered_split _ _ _ _ _ _ Hd1 Hd3 Hd) as E.
      destruct (Hbehind _ E) as (pre1 & -> & Hrest).
      destruct (IH _ _ _ _ _ _ _ _ _ _ _ H Hd3 Hrest Hop) as [-> ->].
      split; [reflexivity|]. f_equal.
      rewrite to_size_t_add_ssize. simpl. f_equal. lia.
    + unfold ret in H. injection H as _ <-. exfalso.
      apply Hlast; [eapply Delivered_unique; eassumption | assumption].
Qed.

Lemma ReadFileImpl_Read_eof_last this offset v w res this' w' new pre op post :
  ReadFileImpl.Read this offset v w = Ret (res, this') w' ->
  Delivered w new w' ->
  new = pre ++ (op, 0) :: post ->
  is_readv op = true ->
  post = [] /\ res = Ok (to_size_t (sum_results pre)).
Proof.
  unfold ReadFileImpl.Read. intros H Hd Hnew Hop.
  apply bind_Ret in H as (u & w1 & Hdc & H). apply DCHECK_Ret in Hdc as [_ ->].
  destruct (iovcnt v =? 0).
  - unfold ret in H. injection H as _ _ <-.
    rewrite (Delivered_unique _ _ _ _ Hd (Delivered_nil w)) in Hnew.
    destruct pre; discriminate.
  - apply bind_Ret in H as (r & w2 & Hloop & H).
    unfold ret in H. injection H as <- _ <-.
    apply (Read_loop_eof_last _ _ _ _ _ _ _ _ _ _ _ _ Hloop Hd Hnew Hop).
Qed.

(** ** End of file *)

(** A zero-byte completion of the positional primitive ends the loop of
    [Read] at once. *)
Lemma Read_loop_zero fuel fd offset v rt w w1 :
  ReadSomeInternal fd v (to_off_t (offset + rt)) 0 w = Ret (Ok 0) w1 ->
  ReadFileImpl.Read_loop (S fuel) fd offset v rt w
    = Ret (Ok (to_size_t rt)) w1.
Proof.
  intros H. cbn [ReadFileImpl.Read_loop].
  now rewrite (bind_of_Ret _ _ _ _ _ H).
Qed.

(** A short result of [ReadAll] ends the loop of [Read]. *)
Lemma Read_loop_short fuel fd offset v rt w read w1 e v' part n w2 :
  ReadSomeInternal fd v (to_off_t (offset + rt)) 0 w = Ret (Ok read) w1 ->
  read <> 0 ->
  skip_completed v read = (e :: v', part) ->
  0 < part ->
  ReadAll fd (to_size_t (offset + to_ssize_t (rt + read)))
    (iov_base e + part) (iov_len e - part) w1 = Ret (Ok n) w2 ->
  n < iov_len e - part ->
  ReadFileImpl.Read_loop (S fuel) fd offset v rt w
    = Ret (Ok (to_size_t (rt + read + n))) w2.
Proof.
  intros Hrs Hnz Hskip Hpart Hall Hshort. cbn [ReadFileImpl.Read_loop].
  rewrite (bind_of_Ret _ _ _ _ _ Hrs).
  apply Z.eqb_neq in Hnz. rewrite Hnz, Hskip.
  apply Z.ltb_lt in Hpart. rewrite Hpart.
  assert (Hd : DCHECK (0 <? iovcnt (e :: v')) w1 = Ret tt w1).
  { unfold DCHECK, iovcnt. simpl List.length.
    replace (0 <? Z.of_nat (S (List.length v'))) with true
      by (symmetry; apply Z.ltb_lt; lia).
    now rewrite andb_false_r. }
  rewrite (bind_of_Ret _ _ _ _ _ Hd), (bind_of_Ret _ _ _ _ _ Hall).
  apply Z.ltb_lt in Hshort. rewrite Hshort. unfold ret.
  now rewrite to_size_t_ssize, to_size_t_add_ssize.
Qed.

(** A zero-byte completion ends [ReadAll] with the bytes it has read. *)
Lemma ReadAll_loop_zero fuel fd offset next len rt w rest :
  completions w = 0 :: rest ->
  ReadAll_loop (S fuel) fd offset next len rt w
    = Ret (Ok (to_size_t rt)) (completed (PrepRead fd next len offset) 0 w).
Proof.
  intros Hc. cbn [ReadAll_loop].
  now rewrite (bind_of_Ret _ _ _ _ _ (FiberCall_Get_next _ _ _ _ Hc)).
Qed.

(** C2. End of file is not an error.
    (1) At every state of the loop of [Read], when the positional
    primitive returns zero bytes the read returns success with the
    running total, and nothing more is submitted.
    (2) At every state of the loop, when the completion ends inside an
    entry and [ReadAll] returns fewer bytes than the rest of that entry,
    the read returns success with the running total including those
    bytes, and nothing more is submitted.
    (3) Inside [ReadAll], a zero-byte completion returns success with
    the bytes read by [ReadAll] so far.
    (4) For a whole call of [Read]: a successful result is the sum of
    all the byte counts the engine delivered during the call, and an
    error is returned only for a negative completion, of which it is
    the negation.
    (5) For a whole call of [Read]: a zero-byte completion of a vectored
    read is the last operation of the call, and the call returns
    success with the sum of the byte counts delivered before it. *)
Theorem eof_is_not_an_error :
  (forall fuel fd offset v rt w w1,
     ReadSomeInternal fd v (to_off_t (offset + rt)) 0 w = Ret (Ok 0) w1 ->
     ReadFileImpl.Read_loop (S fuel) fd offset v rt w
       = Ret (Ok (to_size_t rt)) w1) /\
  (forall fuel fd offset v rt w read w1 e v' part n w2,
     ReadSomeInternal fd v (to_off_t (offset + rt)) 0 w = Ret (Ok read) w1 ->
     read <> 0 ->
     skip_completed v read = (e :: v', part) ->
     0 < part ->
     ReadAll fd (to_size_t (offset + to_ssize_t (rt + read)))
       (iov_base e + part) (iov_len e - part) w1 = Ret (Ok n) w2 ->
     n < iov_len e - part ->
     ReadFileImpl.Read_loop (S fuel) fd offset v rt w
       = Ret (Ok (to_size_t (rt + read + n))) w2) /\
  (forall fuel fd offset next len rt w rest,
     completions w = 0 :: rest ->
     ReadAll_loop (S fuel) fd offset next len rt w
       = Ret (Ok (to_size_t rt))
           (completed (PrepRead fd next len offset) 0 w)) /\
  (forall this offset v w res this' w',
     ReadFileImpl.Read this offset v w = Ret (res, this') w' ->
     exists new, Delivered w new w' /\ accounts 0 new res) /\
  (forall this offset v w res this' w' new pre op post,
     ReadFileImpl.Read this offset v w = Ret (res, this') w' ->
     Delivered w new w' ->
     new = pre ++ (op, 0) :: post ->
     is_readv op = true ->
     post = [] /\ res = Ok (to_size_t (sum_results pre))).
Proof.
  split; [exact Read_loop_zero|].
  split; [exact Read_loop_short|].
  split; [exact ReadAll_loop_zero|].
  split; [exact ReadFileImpl_Read_accounts|].
  exact ReadFileImpl_Read_eof_last.
Qed.

(** End of file after 5 of 10 requested bytes: the read returns 5. *)
Lemma eof_is_not_an_error_witness :
  let v := [mk_iovec 1000 10] in
  let w := example_world [5; 0] in
  let w1 := completed (PrepReadV 3 v 0 0) 5 w in
  let w2 := completed (PrepRead 3 1005 5 5) 0 w1 in
  ReadFileImpl.Read_loop 1 3 0 v 0 w = Ret (Ok 5) w2 /\
  ReadFileImpl.Read_loop 1 3 0 v 5 (example_world [0])
    = Ret (Ok 5) (completed (PrepReadV 3 v 5 0) 0 (example_world [0])).
Proof.
  destruct eof_is_not_an_error as (Hzero & Hshort & _).
  split.
  - apply (Hshort 0%nat 3 0 [mk_iovec 1000 10] 0 (example_world [5; 0]) 5
             (completed (PrepReadV 3 [mk_iovec 1000 10] 0 0) 5
                (example_world [5; 0]))
             (mk_iovec 1000 10) [] 5 0).
    + reflexivity.
    + discriminate.
    + reflexivity.
    + reflexivity.
    + reflexivity.
    + reflexivity.
  - apply (Hzero 0%nat 3 0 [mk_iovec 1000 10] 5 (example_world [0])).
    reflexivity.
Defined.


(** ** Exact transfer when no completion exceeds what is missing *)

Lemma total_len_nonneg v :
  Forall (fun e => 0 <= iov_len e) v -> 0 <= total_len v.
Proof. induction 1; simpl; lia. Qed.

(** What [skip_completed] leaves: the dropped entries are exactly the
    bytes taken off [read], and what is left of [read] ends inside the
    first remaining entry. *)
Lemma skip_completed_total v :
  forall read v1 part,
    Forall (fun e => 0 <= iov_len e) v ->
    0 <= read ->
    skip_completed v read = (v1, part) ->
    total_len v = (read - part) + total_len v1 /\
    0 <= part /\
    Forall (fun e => 0 <= iov_len e) v1 /\
    match v1 with
    | e :: _ => part < iov_len e
    | [] => True
    end.
Proof.
  induction v as [|e v IH]; intros read v1 part Hnn Hr H; simpl in H.
  - injection H as <- <-. simpl. repeat split; [lia | assumption | constructor].
  - inversion Hnn as [|? ? He Hv]; subst.
    destruct (iov_len e <=? read) eqn:Hle.
    + apply Z.leb_le in Hle.
      apply IH in H as (Ht & Hp & Hf & Hm); [|assumption|lia].
      simpl. repeat split; try assumption. lia.
    + apply Z.leb_gt in Hle. injection H as <- <-.
      simpl. repeat split; try assumption; lia.
Qed.

Lemma to_size_t_ssize_small z :
  0 <= z <= SSIZE_MAX -> to_ssize_t z = z /\ to_size_t z = z.
Proof.
  intros H. split.
  - apply to_ssize_t_id. lia.
  - apply to_size_t_id. unfold SSIZE_MAX in H. lia.
Qed.

(** [ReadAll] under such completions fills the entry exactly, or stops
    short on a zero-byte completion. *)
Lemma ReadAll_loop_within fuel :
  forall fd offset next len rt w n w' new rest,
    ReadAll_loop fuel fd offset next len rt w = Ret (Ok n) w' ->
    Delivered w new w' ->
    0 <= rt < len -> len <= SSIZE_MAX ->
    within_remaining (Some (len - rt)) (new ++ rest) ->
    (n = len /\ within_remaining (Some 0) rest) \/
    (rt <= n < len /\ exists pre op, new = pre ++ [(op, 0)]).
Proof.
  induction fuel as [|fuel IH];
    intros fd offset next len rt w n w' new rest H Hd Hrt Hlen Hw;
    [discriminate|].
  cbn [ReadAll_loop] in H.
  apply bind_Ret in H as (r & w1 & Hget & H).
  apply FiberCall_Get_Ret in Hget as [Hc ->].
  set (op := PrepRead fd next len offset) in *.
  assert (Hd1 : Delivered w [(op, r)] (completed op r w)).
  { apply Delivered_completed. rewrite Hc. reflexivity. }
  destruct (r <? 0) eqn:Hneg; [discriminate|]. apply Z.ltb_ge in Hneg.
  destruct (r =? 0) eqn:Hz.
  { apply Z.eqb_eq in Hz. subst r. unfold ret in H. injection H as <- <-.
    right. rewrite (Delivered_unique _ _ _ _ Hd Hd1).
    destruct (to_size_t_ssize_small rt ltac:(lia)) as [_ ->].
    split; [lia | now exists [], op]. }
  apply Z.eqb_neq in Hz.
  assert (Hstep : forall new', new = [(op, r)] ++ new' ->
            r <= len - rt /\
            within_remaining (Some (len - rt - r)) (new' ++ rest)).
  { intros new' ->. simpl in Hw. exact Hw. }
  destruct (to_size_t (to_ssize_t (rt + r)) =? len) eqn:Heq.
  - unfold ret in H. injection H as <- <-.
    pose proof (Delivered_unique _ _ _ _ Hd Hd1) as ->.
    destruct (Hstep [] eq_refl) as [Hr Hrest]. simpl in Hrest.
    destruct (to_size_t_ssize_small (rt + r) ltac:(lia)) as [E1 E2].
    rewrite E1, E2 in *. apply Z.eqb_eq in Heq.
    left. split; [assumption|].
    replace (len - rt - r) with 0 in Hrest by lia. assumption.
  - destruct (ReadAll_loop_accounts _ _ _ _ _ _ _ _ _ H) as (new' & Hd2 & _).
    pose proof (Delivered_split _ _ _ _ _ _ Hd1 Hd2 Hd) as Hnew.
    destruct (Hstep new' Hnew) as [Hr Hrest].
    destruct (to_size_t_ssize_small (rt + r) ltac:(lia)) as [E1 E2].
    rewrite E1 in *. rewrite E2 in Heq. apply Z.eqb_neq in Heq.
    replace (len - rt - r) with (len - (rt + r)) in Hrest by lia.
    destruct (IH _ _ _ _ _ _ _ _ _ _ H Hd2 ltac:(lia) Hlen Hrest)
      as [Hfull | [Hn (pre & op' & Hpre)]].
    + left. assumption.
    + right. split; [lia|].
      exists ([(op, r)] ++ pre), op'. rewrite Hnew, Hpre.
      now rewrite app_assoc.
Qed.

Lemma ReadAll_within fd offset next len w n w' new rest :
  ReadAll fd offset next len w = Ret (Ok n) w' ->
  Delivered w new w' ->
  0 < len <= SSIZE_MAX ->
  within_remaining None (new ++ rest) ->
  (n = len /\ within_remaining (Some 0) rest) \/
  (0 <= n < len /\ exists pre op, new = pre ++ [(op, 0)]).
Proof.
  unfold ReadAll. intros H Hd Hlen Hw.
  apply bind_Ret in H as (u & w1 & Hdc & H). apply DCHECK_Ret in Hdc as [_ ->].
  assert (Hw' : within_remaining (Some (len - 0)) (new ++ rest)).
  { cbn [ReadAll_loop] in H.
    apply bind_Ret in H as (r & w1 & Hget & H).
    apply FiberCall_Get_Ret in Hget as [Hc ->].
    assert (Hd1 : Delivered w [(PrepRead fd next len offset, r)]
                    (completed (PrepRead fd next len offset) r w)).
    { apply Delivered_completed. rewrite Hc. reflexivity. }
    assert (Hhead : exists new', new = (PrepRead fd next len offset, r) :: new').
    { destruct (r <? 0); [discriminate|].
      destruct (r =? 0);
        [unfold ret in H; injection H as _ <-;
         exists []; eapply Delivered_unique; eassumption|].
      destruct (_ =? len);
        [unfold ret in H; injection H as _ <-;
         exists []; eapply Delivered_unique; eassumption|].
      destruct (ReadAll_loop_accounts _ _ _ _ _ _ _ _ _ H) as (new' & Hd2 & _).
      exists new'. apply (Delivered_split _ _ _ _ _ _ Hd1 Hd2 Hd). }
    destruct Hhead as [new' ->]. simpl in Hw |- *.
    now rewrite Z.sub_0_r. }
  destruct (ReadAll_loop_within _ _ _ _ _ _ _ _ _ _ rest H Hd
              ltac:(lia) ltac:(lia) Hw')
    as [Hfull | [Hn Hz]]; [left; assumption | right; split; [lia | assumption]].
Qed.

Lemma iovcnt_zero v : (0 <? iovcnt v) = false -> v = [].
Proof.
  destruct v as [|e v]; [reflexivity|].
  unfold iovcnt. simpl List.length. intros H. apply Z.ltb_ge in H. lia.
Qed.

(** The loop of [Read] under such completions: from a state with
    running total [rt] and remaining list [v] it returns [rt] plus the
    whole length of [v], or less and then the last completion of the
    call was a zero-byte one. *)
Lemma Read_loop_within fuel :
  forall fd offset v rt w n w' new s,
    ReadFileImpl.Read_loop fuel fd offset v rt w = Ret (Ok n) w' ->
    Delivered w new w' ->
    within_remaining s new ->
    Forall (fun e => 0 <= iov_len e) v ->
    0 <= rt -> rt + total_len v <= SSIZE_MAX ->
    n = rt + total_len v \/
    (rt <= n < rt + total_len v /\ exists pre op, new = pre ++ [(op, 0)]).
Proof.
  induction fuel as [|fuel IH];
    intros fd offset v rt w n w' new s H Hd Hw Hv Hrt Hmax; [discriminate|].
  pose proof (total_len_nonneg _ Hv) as Htot.
  cbn [ReadFileImpl.Read_loop] in H.
  apply bind_Ret in H as (res0 & w1 & Hrs & H).
  apply ReadSomeInternal_Ret in Hrs as (r & -> & Hc & ->).
  set (op := PrepReadV fd v (to_off_t (offset + rt)) 0) in *.
  assert (Hd1 : Delivered w [(op, r)] (completed op r w)).
  { apply Delivered_completed. rewrite Hc. reflexivity. }
  destruct (r <? 0) eqn:Hneg; [discriminate|]. apply Z.ltb_ge in Hneg.
  assert (Hstep : forall new1, new = [(op, r)] ++ new1 ->
            r <= total_len v /\ within_remaining None new1).
  { intros new1 ->. simpl in Hw. exact Hw. }
  destruct (r =? 0) eqn:Hz.
  { apply Z.eqb_eq in Hz. subst r. unfold ret in H. injection H as <- <-.
    destruct (to_size_t_ssize_small rt ltac:(lia)) as [_ ->].
    destruct (Z.eq_dec (total_len v) 0) as [E|E]; [left; lia | right].
    split; [lia|]. exists [], op. eapply Delivered_unique; eassumption. }
  apply Z.eqb_neq in Hz.
  destruct (skip_completed v r) as [v1 part] eqn:Hskip.
  apply skip_completed_total in Hskip as (Hsum & Hpart0 & Hv1 & Hhead);
    [|assumption|assumption].
  pose proof (total_len_nonneg _ Hv1) as Htot1.
  destruct (0 <? part) eqn:Hpart.
  - apply Z.ltb_lt in Hpart.
    apply bind_Ret in H as (u & w2 & Hdc & H).
    apply DCHECK_Ret in Hdc as [_ ->].
    destruct v1 as [|e v']; [discriminate|].
    inversion Hv1 as [|? ? He Hv']; subst.
    pose proof (total_len_nonneg _ Hv') as Htot'.
    simpl in Hsum, Htot1.
    apply bind_Ret in H as ([n1|ec] & w3 & Hall & H); [|discriminate].
    destruct (ReadAll_accounts _ _ _ _ _ _ _ Hall) as (block & Hdb & _).
    pose proof (Delivered_trans _ _ _ _ _ Hd1 Hdb) as Hd2.
    set (count := iov_len e - part) in *.
    destruct (n1 <? count) eqn:Hshort.
    + apply Z.ltb_lt in Hshort. unfold ret in H. injection H as <- <-.
      pose proof (Delivered_unique _ _ _ _ Hd Hd2) as Hnew.
      destruct (Hstep block Hnew) as [Hr Hwb].
      rewrite <- (app_nil_r block) in Hwb.
      destruct (ReadAll_within _ _ _ _ _ _ _ _ [] Hall Hdb
                  ltac:(unfold count; lia) Hwb)
        as [[Hfull _] | [Hn1 (pre & op' & Hpre)]]; [lia|].
      destruct (to_size_t_ssize_small (rt + r) ltac:(lia)) as [-> _].
      destruct (to_size_t_ssize_small (rt + r + n1)
                  ltac:(unfold count in *; lia)) as [-> ->].
      right. split; [unfold count in *; lia|].
      exists ([(op, r)] ++ pre), op'. rewrite Hnew, Hpre.
      now rewrite app_assoc.
    + apply Z.ltb_ge in Hshort.
      destruct (0 <? iovcnt v') eqn:Hcnt.
      * destruct (Read_loop_accounts _ _ _ _ _ _ _ _ H) as (rest & Hd3 & _).
        pose proof (Delivered_split _ _ _ _ _ _ Hd2 Hd3 Hd) as Hnew.
        rewrite <- app_assoc in Hnew.
        destruct (Hstep _ Hnew) as [Hr Hwb].
        destruct (ReadAll_within _ _ _ _ _ _ _ _ rest Hall Hdb
                    ltac:(unfold count; lia) Hwb)
          as [[Hfull Hwrest] | [Hn1 _]]; [|lia].
        destruct (to_size_t_ssize_small (rt + r) ltac:(lia)) as [E1 _].
        destruct (to_size_t_ssize_small (rt + r + n1)
                    ltac:(unfold count in *; lia)) as [E2 _].
        rewrite E1, E2 in H.
        destruct (IH _ _ _ _ _ _ _ _ _ H Hd3 Hwrest Hv'
                    ltac:(lia) ltac:(unfold count in *; lia))
          as [Hn | [Hn (pre & op' & Hpre)]].
        -- left. unfold count in *. lia.
        -- right. split; [unfold count in *; lia|].
           exists ([(op, r)] ++ block ++ pre), op'. rewrite Hnew, Hpre.
           now rewrite <- !app_assoc.
      * apply iovcnt_zero in Hcnt. subst v'. simpl in *.
        unfold ret in H. injection H as <- <-.
        pose proof (Delivered_unique _ _ _ _ Hd Hd2) as Hnew.
        destruct (Hstep block Hnew) as [Hr Hwb].
        rewrite <- (app_nil_r block) in Hwb.
        destruct (ReadAll_within _ _ _ _ _ _ _ _ [] Hall Hdb
                    ltac:(unfold count; lia) Hwb)
          as [[Hfull _] | [Hn1 _]]; [|lia].
        destruct (to_size_t_ssize_small (rt + r) ltac:(lia)) as [-> _].
        destruct (to_size_t_ssize_small (rt + r + n1)
                    ltac:(unfold count in *; lia)) as [-> ->].
        left. unfold count in *. lia.
  - apply Z.ltb_ge in Hpart. assert (part = 0) by lia. subst part.
    destruct (0 <? iovcnt v1) eqn:Hcnt.
    + destruct (Read_loop_accounts _ _ _ _ _ _ _ _ H) as (rest & Hd3 & _).
      pose proof (Delivered_split _ _ _ _ _ _ Hd1 Hd3 Hd) as Hnew.
      destruct (Hstep _ Hnew) as [Hr Hwrest].
      destruct (to_size_t_ssize_small (rt + r) ltac:(lia)) as [E1 _].
      rewrite E1 in H.
      destruct (IH _ _ _ _ _ _ _ _ _ H Hd3 Hwrest Hv1 ltac:(lia) ltac:(lia))
        as [Hn | [Hn (pre & op' & Hpre)]].
      * left. lia.
      * right. split; [lia|].
        exists ([(op, r)] ++ pre), op'. rewrite Hnew, Hpre.
        now rewrite <- !app_assoc.
    + apply iovcnt_zero in Hcnt. subst v1. simpl in *.
      unfold ret in H. injection H as <- <-.
      pose proof (Delivered_unique _ _ _ _ Hd Hd1) as Hnew.
      destruct (Hstep [] Hnew) as [Hr _].
      destruct (to_size_t_ssize_small (rt + r) ltac:(lia)) as [-> ->].
      left. lia.
Qed.

(** Exact transfer for completions within what is missing: [Read]
    returns the total length of the list, or less and then the last
    completion of the call was a zero-byte one. *)
Lemma ReadFileImpl_Read_within this offset v w n this' w' new :
  ReadFileImpl.Read this offset v w = Ret (Ok n, this') w' ->
  Delivered w new w' ->
  within_remaining None new ->
  Forall (fun e => 0 <= iov_len e) v ->
  total_len v <= SSIZE_MAX ->
  n = total_len v \/
  (0 <= n < total_len v /\ exists pre op, new = pre ++ [(op, 0)]).
Proof.
  unfold ReadFileImpl.Read. intros H Hd Hw Hv Hmax.
  apply bind_Ret in H as (u & w1 & Hdc & H). apply DCHECK_Ret in Hdc as [_ ->].
  destruct (iovcnt v =? 0) eqn:Hz.
  - unfold ret in H. injection H as <- _ _. left.
    apply Z.eqb_eq in Hz. unfold iovcnt in Hz.
    destruct v; [reflexivity | simpl in Hz; lia].
  - apply bind_Ret in H as (r & w2 & Hloop & H).
    unfold ret in H. injection H as -> _ <-.
    apply (Read_loop_within _ _ _ _ _ _ _ _ _ None Hloop Hd Hw Hv); lia.
Qed.

(** ** The retry loop reads past the entry *)

(** [ReadAll] advances [next] and [offset] after a short completion but
    submits the retry with the [len] it was called with, so a retry may
    complete with more than what is left of the entry.  The exactness
    above then fails. *)

(** C1. Exact-transfer completeness fails on a completion sequence in
    which every result is within its request.  One entry of 4 bytes at
    address 1000, a file of 5 bytes; the engine completes the vectored
    read with 1 byte, the first retry (3 bytes asked at 1001) with 1
    byte, the second retry (again 3 bytes asked, now at 1002) with 3
    bytes, and the third with 0.  [Read] returns 5 for a list of total
    length 4. *)
Theorem read_returns_more_than_requested :
  let v := [mk_iovec 1000 4] in
  let this := ReadFileImpl.mk 3 5 in
  exists w',
    ReadFileImpl.Read this 0 v (example_world [1; 1; 3; 0])
      = Ret (Ok 5, this) w' /\
    total_len v = 4 /\
    submitted w' =
      [(PrepReadV 3 v 0 0, 1);
       (PrepRead 3 1001 3 1, 1);
       (PrepRead 3 1002 3 2, 3);
       (PrepRead 3 1005 3 5, 0)] /\
    within_request (submitted w') = true.
Proof.
  eexists. split; [reflexivity|]. repeat split.
Qed.

(** ** The operations of a call, case by case *)

Lemma ReadAll_loop_trace fuel :
  forall fd offset next len rt w res w' new,
    ReadAll_loop fuel fd offset next len rt w = Ret res w' ->
    Delivered w new w' ->
    ReadAllTrace fd len offset next rt new res.
Proof.
  induction fuel as [|fuel IH];
    intros fd offset next len rt w res w' new H Hd; [discriminate|].
  cbn [ReadAll_loop] in H.
  apply bind_Ret in H as (r & w1 & Hget & H).
  apply FiberCall_Get_Ret in Hget as [Hc ->].
  set (op := PrepRead fd next len offset) in *.
  assert (Hd1 : Delivered w [(op, r)] (completed op r w)).
  { apply Delivered_completed. rewrite Hc. reflexivity. }
  destruct (r <? 0) eqn:Hneg.
  { unfold ret in H. injection H as <- <-.
    rewrite (Delivered_unique _ _ _ _ Hd Hd1).
    apply RA_error. now apply Z.ltb_lt. }
  apply Z.ltb_ge in Hneg.
  destruct (r =? 0) eqn:Hz.
  { unfold ret in H. injection H as <- <-.
    rewrite (Delivered_unique _ _ _ _ Hd Hd1).
    apply Z.eqb_eq in Hz. subst r. apply RA_eof. }
  apply Z.eqb_neq in Hz.
  destruct (to_size_t (to_ssize_t (rt + r)) =? len) eqn:Heq.
  { unfold ret in H. injection H as <- <-.
    rewrite (Delivered_unique _ _ _ _ Hd Hd1).
    apply Z.eqb_eq in Heq. apply RA_full; [lia | assumption]. }
  apply Z.eqb_neq in Heq.
  destruct (ReadAll_loop_accounts _ _ _ _ _ _ _ _ _ H) as (new' & Hd2 & _).
  rewrite (Delivered_split _ _ _ _ _ _ Hd1 Hd2 Hd).
  apply RA_more; [lia | assumption |].
  eapply IH; eassumption.
Qed.

Lemma ReadAll_trace fd offset next len w res w' new :
  ReadAll fd offset next len w = Ret res w' ->
  Delivered w new w' ->
  ReadAllTrace fd len offset next 0 new res.
Proof.
  unfold ReadAll. intros H Hd.
  apply bind_Ret in H as (u & w1 & Hdc & H). apply DCHECK_Ret in Hdc as [_ ->].
  eapply ReadAll_loop_trace; eassumption.
Qed.

Lemma ReadSomeInternal_Ret_pre fd iov offset flags w res w' :
  ReadSomeInternal fd iov offset flags w = Ret res w' ->
  0 <= fd /\ iov <> [].
Proof.
  unfold ReadSomeInternal. intros H.
  apply bind_Ret in H as (u1 & w1 & H1 & H). apply CHECK_Ret in H1 as [Hfd ->].
  apply bind_Ret in H as (u2 & w2 & H2 & H). apply CHECK_Ret in H2 as [Hcnt ->].
  split; [now apply Z.leb_le|].
  intros ->. discriminate Hcnt.
Qed.

Lemma iovcnt_pos_inv v : (0 <? iovcnt v) = true -> v <> [].
Proof. intros H ->. discriminate H. Qed.

Lemma Read_loop_trace fuel :
  forall fd offset v rt w res w' new,
    ReadFileImpl.Read_loop fuel fd offset v rt w = Ret res w' ->
    Delivered w new w' ->
    ReadTrace fd offset v rt new res.
Proof.
  induction fuel as [|fuel IH]; intros fd offset v rt w res w' new H Hd;
    [discriminate|].
  cbn [ReadFileImpl.Read_loop] in H.
  apply bind_Ret in H as (res0 & w1 & Hrs & H).
  destruct (ReadSomeInternal_Ret_pre _ _ _ _ _ _ _ Hrs) as [_ Hv].
  apply ReadSomeInternal_Ret in Hrs as (r & -> & Hc & ->).
  set (op := PrepReadV fd v (to_off_t (offset + rt)) 0) in *.
  assert (Hd1 : Delivered w [(op, r)] (completed op r w)).
  { apply Delivered_completed. rewrite Hc. reflexivity. }
  destruct (r <? 0) eqn:Hneg.
  { unfold ret in H. injection H as <- <-.
    rewrite (Delivered_unique _ _ _ _ Hd Hd1).
    apply RT_error; [assumption | now apply Z.ltb_lt]. }
  apply Z.ltb_ge in Hneg.
  destruct (r =? 0) eqn:Hz.
  { unfold ret in H. injection H as <- <-.
    rewrite (Delivered_unique _ _ _ _ Hd Hd1).
    apply Z.eqb_eq in Hz. subst r. now apply RT_eof. }
  apply Z.eqb_neq in Hz. assert (Hr : 0 < r) by lia.
  destruct (skip_completed v r) as [v1 part] eqn:Hskip.
  destruct (0 <? part) eqn:Hpart.
  - apply Z.ltb_lt in Hpart.
    apply bind_Ret in H as (u & w2 & Hdc & H).
    apply DCHECK_Ret in Hdc as [_ ->].
    destruct v1 as [|e v']; [discriminate|].
    apply bind_Ret in H as (res1 & w3 & Hall & H).
    destruct (ReadAll_accounts _ _ _ _ _ _ _ Hall) as (block & Hdb & _).
    pose proof (ReadAll_trace _ _ _ _ _ _ _ _ Hall Hdb) as Hblock.
    pose proof (Delivered_trans _ _ _ _ _ Hd1 Hdb) as Hd2.
    destruct res1 as [n|ec].
    + destruct (n <? iov_len e - part) eqn:Hshort.
      { unfold ret in H. injection H as <- <-.
        rewrite (Delivered_unique _ _ _ _ Hd Hd2).
        apply Z.ltb_lt in Hshort.
        eapply RT_retry_short; eassumption. }
      apply Z.ltb_ge in Hshort.
      destruct (0 <? iovcnt v') eqn:Hcnt.
      * destruct (Read_loop_accounts _ _ _ _ _ _ _ _ H) as (rest & Hd3 & _).
        rewrite (Delivered_split _ _ _ _ _ _ Hd2 Hd3 Hd).
        rewrite <- app_assoc. simpl.
        eapply RT_retry_next; try eassumption.
        -- now apply iovcnt_pos_inv.
        -- eapply IH; eassumption.
      * apply iovcnt_zero in Hcnt. subst v'.
        unfold ret in H. injection H as <- <-.
        rewrite (Delivered_unique _ _ _ _ Hd Hd2).
        eapply RT_retry_done; eassumption.
    + unfold ret in H. injection H as <- <-.
      rewrite (Delivered_unique _ _ _ _ Hd Hd2).
      eapply RT_retry_error; eassumption.
  - apply Z.ltb_ge in Hpart.
    destruct (0 <? iovcnt v1) eqn:Hcnt.
    + destruct (Read_loop_accounts _ _ _ _ _ _ _ _ H) as (rest & Hd3 & _).
      rewrite (Delivered_split _ _ _ _ _ _ Hd1 Hd3 Hd). simpl.
      eapply RT_next; try eassumption.
      * now apply iovcnt_pos_inv.
      * eapply IH; eassumption.
    + apply iovcnt_zero in Hcnt. subst v1.
      unfold ret in H. injection H as <- <-.
      rewrite (Delivered_unique _ _ _ _ Hd Hd1).
      eapply RT_done; eassumption.
Qed.

(** A returning call of [Read] either had nothing to do or ran the
    loop from the whole list with running total 0. *)
Lemma ReadFileImpl_Read_trace this offset v w res this' w' new :
  ReadFileImpl.Read this offset v w = Ret (res, this') w' ->
  Delivered w new w' ->
  (v = [] /\ new = [] /\ res = Ok 0) \/
  (v <> [] /\ ReadTrace (ReadFileImpl.fd_ this) offset v 0 new res).
Proof.
  unfold ReadFileImpl.Read. intros H Hd.
  apply bind_Ret in H as (u & w1 & Hdc & H). apply DCHECK_Ret in Hdc as [_ ->].
  destruct (iovcnt v =? 0) eqn:Hz.
  - unfold ret in H. injection H as <- _ <-. left.
    apply Z.eqb_eq in Hz. unfold iovcnt in Hz.
    destruct v; [|simpl in Hz; lia].
    repeat split. apply (Delivered_unique _ _ _ _ Hd (Delivered_nil w)).
  - apply bind_Ret in H as (r & w2 & Hloop & H).
    unfold ret in H. injection H as <- _ <-. right.
    apply Z.eqb_neq in Hz. split.
    + intros ->. now apply Hz.
    + eapply Read_loop_trace; eassumption.
Qed.

(** ** The first error ends a call *)

Lemma stops_at_first_error_app l1 l2 res :
  Forall (fun x => 0 <= snd x) l1 ->
  stops_at_first_error l2 res ->
  stops_at_first_error (l1 ++ l2) res.
Proof.
  intros H1 [[H2 Hok] | (pre & op & r & -> & Hpre & Hr & ->)].
  - left. split; [now apply Forall_app | assumption].
  - right. exists (l1 ++ pre), op, r.
    rewrite app_assoc. repeat split; try assumption.
    now apply Forall_app.
Qed.

Lemma stops_at_first_error_one op r n :
  0 <= r -> stops_at_first_error [(op, r)] (Ok n).
Proof.
  intros Hr. left. split; [repeat constructor; assumption | now exists n].
Qed.

Lemma stops_at_first_error_neg op r :
  r < 0 -> stops_at_first_error [(op, r)] (Unexpected (mk_error_code (- r))).
Proof. intros Hr. right. exists [], op, r. repeat split; auto. Qed.

Lemma ReadAllTrace_stops fd len offset next rt block res :
  ReadAllTrace fd len offset next rt block res ->
  stops_at_first_error block res.
Proof.
  induction 1 as [offset next rt r Hr | offset next rt
                 | offset next rt r Hr Heq
                 | offset next rt r rest res Hr Hne _ IH].
  - now apply stops_at_first_error_neg.
  - apply stops_at_first_error_one. lia.
  - apply stops_at_first_error_one. lia.
  - apply (stops_at_first_error_app [_]); [|assumption].
    repeat constructor. simpl. lia.
Qed.

Lemma ReadAllTrace_Ok_nonneg fd len offset next rt block n :
  ReadAllTrace fd len offset next rt block (Ok n) ->
  Forall (fun x => 0 <= snd x) block.
Proof.
  intros H. apply ReadAllTrace_stops in H as [[H _] | (? & ? & ? & _ & _ & _ & H)];
    [assumption | discriminate].
Qed.

Lemma ReadTrace_stops fd offset v rt new res :
  ReadTrace fd offset v rt new res ->
  stops_at_first_error new res.
Proof.
  induction 1 as [v rt r Hv Hr | v rt Hv | v rt r part Hv Hr Hskip Hpart
                 | v rt r v1 part rest res Hv Hr Hskip Hpart Hv1 _ IH
                 | v rt r e v' part block ec Hv Hr Hskip Hpart Hblock
                 | v rt r e v' part block n Hv Hr Hskip Hpart Hblock Hn
                 | v rt r e part block n Hv Hr Hskip Hpart Hblock Hn
                 | v rt r e v' part block n rest res Hv Hr Hskip Hpart
                     Hblock Hn Hv' _ IH].
  - now apply stops_at_first_error_neg.
  - apply stops_at_first_error_one. lia.
  - apply stops_at_first_error_one. lia.
  - apply (stops_at_first_error_app [_]); [|assumption].
    repeat constructor. simpl. lia.
  - apply (stops_at_first_error_app [_]);
      [repeat constructor; simpl; lia|].
    eapply ReadAllTrace_stops; eassumption.
  - apply (stops_at_first_error_app [_]);
      [repeat constructor; simpl; lia|].
    left. split; [eapply ReadAllTrace_Ok_nonneg; eassumption | eauto].
  - apply (stops_at_first_error_app [_]);
      [repeat constructor; simpl; lia|].
    left. split; [eapply ReadAllTrace_Ok_nonneg; eassumption | eauto].
  - apply (stops_at_first_error_app [_]);
      [repeat constructor; simpl; lia|].
    apply stops_at_first_error_app; [|assumption].
    eapply ReadAllTrace_Ok_nonneg; eassumption.
Qed.

(** X1. Error propagation of [Read].  In a call that returns, the
    completions before the last are all non-negative.  The call returns
    an error exactly when its last completion is negative, and the
    error is the negation of that completion; the byte counts delivered
    before it are not reported. *)
Theorem read_stops_at_first_error this offset v w res this' w' new :
  ReadFileImpl.Read this offset v w = Ret (res, this') w' ->
  Delivered w new w' ->
  stops_at_first_error new res.
Proof.
  intros H Hd.
  destruct (ReadFileImpl_Read_trace _ _ _ _ _ _ _ _ H Hd)
    as [(_ & -> & ->) | [_ Ht]].
  - left. split; [constructor | now exists 0].
  - eapply ReadTrace_stops; eassumption.
Qed.

Lemma read_stops_at_first_error_witness :
  let v := [mk_iovec 1000 4; mk_iovec 2000 4] in
  let this := ReadFileImpl.mk 3 100 in
  exists w' new,
    ReadFileImpl.Read this 0 v (example_world [4; 2; -5; 7])
      = Ret (Unexpected (mk_error_code 5), this) w' /\
    Delivered (example_world [4; 2; -5; 7]) new w' /\
    stops_at_first_error new (Unexpected (mk_error_code 5)).
Proof.
  intros v this.
  set (w := example_world [4; 2; -5; 7]).
  set (new := [(PrepReadV 3 v 0 0, 4);
               (PrepReadV 3 [mk_iovec 2000 4] 4 0, 2);
               (PrepRead 3 2002 2 6, -5)]).
  set (w' := mk_World [7] new 0 (fstat_of w) (close_of w) [] (Some IOURING)
               true).
  assert (H : ReadFileImpl.Read this 0 v w
              = Ret (Unexpected (mk_error_code 5), this) w') by reflexivity.
  assert (Hd : Delivered w new w') by (repeat split).
  exists w', new. split; [exact H|]. split; [exact Hd|].
  exact (read_stops_at_first_error this 0 v w _ this w' new H Hd).
Defined.

(** ** Progress of the loop of [Read] *)

Lemma count_readv_cons x l :
  count_readv (x :: l)
  = ((if is_readv (fst x) then 1 else 0) + count_readv l)%nat.
Proof. unfold count_readv. simpl. now destruct (is_readv (fst x)). Qed.

Lemma count_readv_app l1 l2 :
  count_readv (l1 ++ l2) = (count_readv l1 + count_readv l2)%nat.
Proof. unfold count_readv. now rewrite filter_app, length_app. Qed.

Lemma ReadAllTrace_count_readv fd len offset next rt block res :
  ReadAllTrace fd len offset next rt block res -> count_readv block = 0%nat.
Proof.
  induction 1; try reflexivity.
  rewrite count_readv_cons. simpl. assumption.
Qed.

Lemma nonempty_length {A} (l : list A) : l <> [] -> (0 < List.length l)%nat.
Proof. destruct l; [congruence | simpl; lia]. Qed.

Lemma ReadTrace_count_readv fd offset v rt new res :
  ReadTrace fd offset v rt new res ->
  (count_readv new <= List.length v)%nat.
Proof.
  induction 1 as [v rt r Hv Hr | v rt Hv | v rt r part Hv Hr Hskip Hpart
                 | v rt r v1 part rest res Hv Hr Hskip Hpart Hv1 _ IH
                 | v rt r e v' part block ec Hv Hr Hskip Hpart Hblock
                 | v rt r e v' part block n Hv Hr Hskip Hpart Hblock Hn
                 | v rt r e part block n Hv Hr Hskip Hpart Hblock Hn
                 | v rt r e v' part block n rest res Hv Hr Hskip Hpart
                     Hblock Hn Hv' _ IH];
    pose proof (nonempty_length _ Hv) as Hlen;
    rewrite count_readv_cons; cbn [fst is_readv];
    try (apply ReadAllTrace_count_readv in Hblock);
    try (apply skip_completed_length in Hskip);
    change (count_readv []) with 0%nat.
  - lia.
  - lia.
  - lia.
  - destruct Hskip as [[_ ->] | Hskip]; lia.
  - lia.
  - lia.
  - lia.
  - rewrite count_readv_app, Hblock.
    destruct Hskip as [[<- _] | Hskip]; simpl in *; lia.
Qed.

(** X2. Progress of [Read].  A call over a list of [len] entries
    submits at most [len] vectored reads, whatever the engine delivers:
    every vectored read that is followed by another one has retired at
    least one entry. *)
Theorem read_submits_at_most_len_vectored_reads
  this offset v w res this' w' new :
  ReadFileImpl.Read this offset v w = Ret (res, this') w' ->
  Delivered w new w' ->
  (count_readv new <= List.length v)%nat.
Proof.
  intros H Hd.
  destruct (ReadFileImpl_Read_trace _ _ _ _ _ _ _ _ H Hd)
    as [(_ & -> & _) | [_ Ht]].
  - unfold count_readv. simpl. lia.
  - eapply ReadTrace_count_readv; eassumption.
Qed.

Lemma read_submits_at_most_len_vectored_reads_witness :
  let v := [mk_iovec 1000 4; mk_iovec 2000 4; mk_iovec 3000 4] in
  let this := ReadFileImpl.mk 3 100 in
  exists w' new,
    ReadFileImpl.Read this 0 v (example_world [3; 1; 3; 1; 3; 1])
      = Ret (Ok 12, this) w' /\
    Delivered (example_world [3; 1; 3; 1; 3; 1]) new w' /\
    count_readv new = 3%nat /\
    (count_readv new <= List.length v)%nat.
Proof.
  intros v this.
  set (w := example_world [3; 1; 3; 1; 3; 1]).
  set (new := [(PrepReadV 3 v 0 0, 3);
               (PrepRead 3 1003 1 3, 1);
               (PrepReadV 3 [mk_iovec 2000 4; mk_iovec 3000 4] 4 0, 3);
               (PrepRead 3 2003 1 7, 1);
               (PrepReadV 3 [mk_iovec 3000 4] 8 0, 3);
               (PrepRead 3 3003 1 11, 1)]).
  set (w' := mk_World [] new 0 (fstat_of w) (close_of w) [] (Some IOURING)
               true).
  assert (H : ReadFileImpl.Read this 0 v w = Ret (Ok 12, this) w')
    by reflexivity.
  assert (Hd : Delivered w new w') by (repeat split).
  exists w', new. split; [exact H|]. split; [exact Hd|].
  split; [reflexivity|].
  exact (read_submits_at_most_len_vectored_reads this 0 v w _ this w' new
           H Hd).
Defined.

(** ** The file offsets of a call are contiguous *)

Lemma to_size_t_cong_add a b c :
  to_size_t a = to_size_t b -> to_size_t (a + c) = to_size_t (b + c).
Proof.
  unfold to_size_t. intros H.
  rewrite <- (Zplus_mod_idemp_l a), <- (Zplus_mod_idemp_l b). now rewrite H.
Qed.

Lemma to_size_t_idem z : to_size_t (to_size_t z) = to_size_t z.
Proof. unfold to_size_t. apply Z.mod_mod. lia. Qed.

Lemma contiguous_cong l :
  forall pos pos',
    to_size_t pos = to_size_t pos' -> contiguous pos l -> contiguous pos' l.
Proof.
  induction l as [|x l IH]; intros pos pos' E H; [exact I|].
  destruct H as [Hx Hl]. split; [congruence|].
  apply (IH (pos + snd x)); [|assumption].
  now apply to_size_t_cong_add.
Qed.

Lemma contiguous_app l1 :
  forall pos l2,
    contiguous pos l1 -> contiguous (pos + sum_results l1) l2 ->
    contiguous pos (l1 ++ l2).
Proof.
  induction l1 as [|x l1 IH]; intros pos l2 H1 H2; simpl in *.
  - now rewrite Z.add_0_r in H2.
  - destruct H1 as [Hx H1]. split; [assumption|].
    apply IH; [assumption|]. now rewrite <- Z.add_assoc.
Qed.

Lemma ReadAllTrace_sum fd len offset next rt block res :
  ReadAllTrace fd len offset next rt block res ->
  forall n, res = Ok n -> n = to_size_t (rt + sum_results block).
Proof.
  induction 1 as [offset next rt r Hr | offset next rt
                 | offset next rt r Hr Heq
                 | offset next rt r rest res Hr Hne _ IH]; intros n E.
  - discriminate.
  - injection E as <-. simpl. f_equal. lia.
  - injection E as <-. rewrite to_size_t_ssize. simpl. f_equal. lia.
  - rewrite (IH n E), to_size_t_add_ssize. simpl. f_equal. lia.
Qed.

Lemma ReadAllTrace_contiguous fd len offset next rt block res :
  ReadAllTrace fd len offset next rt block res ->
  forall pos, to_size_t offset = to_size_t pos -> contiguous pos block.
Proof.
  induction 1 as [offset next rt r Hr | offset next rt
                 | offset next rt r Hr Heq
                 | offset next rt r rest res Hr Hne _ IH]; intros pos E;
    simpl; try (split; [assumption | exact I]).
  split; [assumption|]. apply IH.
  rewrite to_size_t_idem. now apply to_size_t_cong_add.
Qed.

(** The offset of the operation after a completion of [r] bytes, and
    after a retry loop that returned [n]. *)
Lemma offset_after_completion offset rt pos r :
  to_size_t (offset + rt) = to_size_t pos ->
  to_size_t (offset + to_ssize_t (rt + r)) = to_size_t (pos + r).
Proof.
  intros E. rewrite Z.add_comm, to_size_t_add_ssize.
  replace (rt + r + offset) with (offset + rt + r) by lia.
  now apply to_size_t_cong_add.
Qed.

Lemma offset_after_block offset rt pos r n s :
  to_size_t (offset + rt) = to_size_t pos ->
  n = to_size_t (0 + s) ->
  to_size_t (offset + to_ssize_t (to_ssize_t (rt + r) + n))
  = to_size_t (pos + r + s).
Proof.
  intros E ->. rewrite Z.add_comm, to_size_t_add_ssize.
  replace (to_ssize_t (rt + r) + to_size_t (0 + s) + offset)
    with (to_ssize_t (rt + r) + (to_size_t (0 + s) + offset)) by lia.
  rewrite to_size_t_add_ssize.
  replace (rt + r + (to_size_t (0 + s) + offset))
    with (rt + r + offset + to_size_t (0 + s)) by lia.
  rewrite to_size_t_add_size.
  replace (rt + r + offset + (0 + s)) with (offset + rt + (r + s)) by lia.
  replace (pos + r + s) with (pos + (r + s)) by lia.
  now apply to_size_t_cong_add.
Qed.

Lemma ReadTrace_contiguous fd offset v rt new res :
  ReadTrace fd offset v rt new res ->
  forall pos, to_size_t (offset + rt) = to_size_t pos -> contiguous pos new.
Proof.
  induction 1 as [v rt r Hv Hr | v rt Hv | v rt r part Hv Hr Hskip Hpart
                 | v rt r v1 part rest res Hv Hr Hskip Hpart Hv1 _ IH
                 | v rt r e v' part block ec Hv Hr Hskip Hpart Hblock
                 | v rt r e v' part block n Hv Hr Hskip Hpart Hblock Hn
                 | v rt r e part block n Hv Hr Hskip Hpart Hblock Hn
                 | v rt r e v' part block n rest res Hv Hr Hskip Hpart
                     Hblock Hn Hv' _ IH];
    intros pos E;
    (split; [cbn [fst op_offset]; unfold to_off_t;
             now rewrite to_size_t_ssize|]);
    cbn [snd];
    try exact I;
    try (pose proof (ReadAllTrace_contiguous _ _ _ _ _ _ _ Hblock (pos + r))
           as Hcont;
         rewrite to_size_t_idem in Hcont;
         specialize (Hcont (offset_after_completion _ _ _ r E))).
  - apply IH. now apply offset_after_completion.
  - assumption.
  - assumption.
  - assumption.
  - apply contiguous_app; [assumption|].
    apply IH. rewrite <- Z.add_assoc, Z.add_assoc.
    apply offset_after_block; [assumption|].
    eapply ReadAllTrace_sum; [eassumption | reflexivity].
Qed.

(** X3. The file offsets of [Read] are contiguous.  In a call that
    returns, the first operation is submitted at the caller's offset
    and each later one at the caller's offset plus the byte counts
    delivered before it (modulo 2^64, the width of the offset), for
    every sequence of completions.  No part of the file is skipped or
    read twice. *)
Theorem read_offsets_are_contiguous this offset v w res this' w' new :
  ReadFileImpl.Read this offset v w = Ret (res, this') w' ->
  Delivered w new w' ->
  contiguous offset new.
Proof.
  intros H Hd.
  destruct (ReadFileImpl_Read_trace _ _ _ _ _ _ _ _ H Hd)
    as [(_ & -> & _) | [_ Ht]]; [exact I|].
  apply (ReadTrace_contiguous _ _ _ _ _ _ Ht). f_equal. lia.
Qed.

Lemma read_offsets_are_contiguous_witness :
  let v := [mk_iovec 1000 4; mk_iovec 2000 4; mk_iovec 3000 4] in
  let this := ReadFileImpl.mk 3 100 in
  let new := [(PrepReadV 3 v 50 0, 3);
              (PrepRead 3 1003 1 53, 1);
              (PrepReadV 3 [mk_iovec 2000 4; mk_iovec 3000 4] 54 0, 3);
              (PrepRead 3 2003 1 57, 1);
              (PrepReadV 3 [mk_iovec 3000 4] 58 0, 3);
              (PrepRead 3 3003 1 61, 1)] in
  exists w',
    ReadFileImpl.Read this 50 v (example_world [3; 1; 3; 1; 3; 1])
      = Ret (Ok 12, this) w' /\
    Delivered (example_world [3; 1; 3; 1; 3; 1]) new w' /\
    contiguous 50 new.
Proof.
  intros v this new.
  set (w := example_world [3; 1; 3; 1; 3; 1]).
  set (w' := mk_World [] new 0 (fstat_of w) (close_of w) [] (Some IOURING)
               true).
  assert (H : ReadFileImpl.Read this 50 v w = Ret (Ok 12, this) w')
    by reflexivity.
  assert (Hd : Delivered w new w') by (repeat split).
  exists w'. split; [exact H|]. split; [exact Hd|].
  exact (read_offsets_are_contiguous this 50 v w _ this w' new H Hd).
Defined.

(** ** Where the bytes land *)

Lemma total_len_app l1 l2 : total_len (l1 ++ l2) = total_len l1 + total_len l2.
Proof. induction l1 as [|e l1 IH]; simpl; [reflexivity | rewrite IH; lia]. Qed.

(** The entries that [skip_completed] drops hold exactly the bytes it
    takes off [read]. *)
Lemma skip_completed_split v :
  forall read v1 part,
    skip_completed v read = (v1, part) ->
    exists dropped, v = dropped ++ v1 /\ total_len dropped = read - part.
Proof.
  induction v as [|e v IH]; intros read v1 part H; simpl in H.
  - injection H as <- <-. exists []. simpl. split; [reflexivity | lia].
  - destruct (iov_len e <=? read).
    + apply IH in H as (dropped & -> & Ht).
      exists (e :: dropped). simpl. split; [reflexivity | lia].
    + injection H as <- <-. exists []. simpl. split; [reflexivity | lia].
Qed.

Lemma in_order_app v l1 :
  forall pos l2,
    in_order v pos l1 -> in_order v (pos + sum_results l1) l2 ->
    in_order v pos (l1 ++ l2).
Proof.
  induction l1 as [|x l1 IH]; intros pos l2 H1 H2; simpl in *.
  - now rewrite Z.add_0_r in H2.
  - destruct H1 as [Hx H1]. split; [assumption|].
    apply IH; [assumption|]. now rewrite <- Z.add_assoc.
Qed.

Lemma ReadAllTrace_head fd len offset next rt block res :
  ReadAllTrace fd len offset next rt block res ->
  exists r tl, block = (PrepRead fd next len offset, r) :: tl.
Proof. destruct 1; eauto. Qed.

(** The retries of one entry [e], entered at position [p0] of the
    entry: each stores at the address of the position reached, inside
    [e]; a success is the bytes delivered, at most the rest of [e]. *)
Lemma ReadAllTrace_in_order fd len offset next rt block res :
  ReadAllTrace fd len offset next rt block res ->
  forall v0 pre e post p0 rest,
    v0 = pre ++ e :: post ->
    next = iov_base e + p0 + rt ->
    len = iov_len e - p0 ->
    0 <= p0 -> 0 <= rt < len -> len <= SSIZE_MAX ->
    within_remaining (Some (len - rt)) (block ++ rest) ->
    in_order v0 (total_len pre + p0 + rt) block /\
    (forall n, res = Ok n ->
       n = rt + sum_results block /\ n <= len /\
       (n = len -> within_remaining (Some 0) rest)).
Proof.
  induction 1 as [offset next rt r Hr | offset next rt
                 | offset next rt r Hr Heq
                 | offset next rt r tl res Hr Hne _ IH];
    intros v0 pre e post p0 rest Hv0 Hnext Hlen Hp0 Hrt Hmax Hw;
    simpl in Hw; destruct Hw as [Hle Hw].
  - split; [|discriminate]. split; [|exact I].
    exists pre, e, post. cbn [snd]. repeat split; try assumption; lia.
  - split.
    + split; [|exact I].
      exists pre, e, post. cbn [snd]. repeat split; try assumption; lia.
    + intros n [= <-].
      destruct (to_size_t_ssize_small rt ltac:(lia)) as [_ ->].
      simpl. repeat split; lia.
  - destruct (to_size_t_ssize_small (rt + r) ltac:(lia)) as [E1 E2].
    rewrite E1, E2 in *. split.
    + split; [|exact I].
      exists pre, e, post. cbn [snd]. repeat split; try assumption; lia.
    + intros n [= <-]. simpl. repeat split; try lia.
      intros _. replace (len - rt - r) with 0 in Hw by lia. assumption.
  - destruct (to_size_t_ssize_small (rt + r) ltac:(lia)) as [E1 E2].
    rewrite E1 in *. rewrite E2 in Hne.
    replace (len - rt - r) with (len - (rt + r)) in Hw by lia.
    destruct (IH v0 pre e post p0 rest Hv0 ltac:(lia) Hlen Hp0 ltac:(lia)
                Hmax Hw) as [Hin Hres].
    split.
    + split.
      * exists pre, e, post. cbn [snd]. repeat split; try assumption; lia.
      * cbn [snd]. now rewrite <- Z.add_assoc.
    + intros n E. destruct (Hres n E) as (Hn & Hnl & Hrest).
      simpl. repeat split; try assumption; lia.
Qed.

Lemma Forall_app_r {A} (P : A -> Prop) l1 l2 :
  Forall P (l1 ++ l2) -> Forall P l2.
Proof. intros H. now apply Forall_app in H. Qed.

Lemma ReadTrace_in_order fd offset v rt new res :
  ReadTrace fd offset v rt new res ->
  forall v0 pre s,
    v0 = pre ++ v -> total_len pre = rt ->
    Forall (fun e => 0 <= iov_len e) v0 ->
    total_len v0 <= SSIZE_MAX ->
    within_remaining s new ->
    in_order v0 rt new.
Proof.
  induction 1 as [v rt r Hv Hr | v rt Hv | v rt r part Hv Hr Hskip Hpart
                 | v rt r v1 part rest res Hv Hr Hskip Hpart Hv1 _ IH
                 | v rt r e v' part block ec Hv Hr Hskip Hpart Hblock
                 | v rt r e v' part block n Hv Hr Hskip Hpart Hblock Hn
                 | v rt r e part block n Hv Hr Hskip Hpart Hblock Hn
                 | v rt r e v' part block n rest res Hv Hr Hskip Hpart
                     Hblock Hn Hv' _ IH];
    intros v0 pre s Hv0 Hpre Hnn Hmax Hw;
    simpl in Hw; destruct Hw as [Hle Hw];
    assert (Hnnv : Forall (fun e => 0 <= iov_len e) v)
      by (rewrite Hv0 in Hnn; now apply Forall_app_r in Hnn);
    assert (Hnnpre : 0 <= total_len pre)
      by (apply total_len_nonneg; rewrite Hv0 in Hnn;
          now apply Forall_app in Hnn);
    assert (Htot : total_len v0 = rt + total_len v)
      by (rewrite Hv0, total_len_app; lia);
    (split; [exists pre; cbn [snd]; now repeat split|]); cbn [snd];
    try exact I.
  - (* the completion ended on an entry boundary *)
    destruct (skip_completed_split _ _ _ _ Hskip) as (dropped & Hsplit & Hdrop).
    destruct (skip_completed_total _ _ _ _ Hnnv (Z.lt_le_incl _ _ Hr) Hskip)
      as (_ & Hpart0 & _ & _).
    destruct (to_size_t_ssize_small (rt + r) ltac:(lia)) as [E1 _].
    rewrite E1 in IH.
    apply (IH v0 (pre ++ dropped) None); try assumption.
    + rewrite Hv0, Hsplit. now rewrite app_assoc.
    + rewrite total_len_app. lia.
  - (* the retry loop failed *)
    destruct (skip_completed_split _ _ _ _ Hskip) as (dropped & Hsplit & Hdrop).
    destruct (skip_completed_total _ _ _ _ Hnnv (Z.lt_le_incl _ _ Hr) Hskip)
      as (Hsum & _ & Hnn1 & Hhead).
    pose proof (total_len_nonneg _ Hnn1) as Htot1. simpl in Hsum, Htot1.
    pose proof (Forall_inv Hnn1) as He. pose proof (Forall_inv_tail Hnn1) as Hnn'.
    simpl in He.
    pose proof (total_len_nonneg _ Hnn') as Htot'.
    destruct (ReadAllTrace_head _ _ _ _ _ _ _ Hblock) as (r1 & tl & Hb).
    rewrite <- (app_nil_r block) in Hw. rewrite Hb in Hw.
    destruct (ReadAllTrace_in_order _ _ _ _ _ _ _ Hblock v0 (pre ++ dropped)
                e v' part [])
      as [Hin _]; try lia.
    + rewrite Hv0, Hsplit. now rewrite app_assoc.
    + rewrite Hb. simpl in Hw |- *. now rewrite Z.sub_0_r.
    + rewrite total_len_app in Hin.
      replace (total_len pre + total_len dropped + part + 0) with (rt + r)
        in Hin by lia.
      assumption.
  - (* the retry loop stopped short *)
    destruct (skip_completed_split _ _ _ _ Hskip) as (dropped & Hsplit & Hdrop).
    destruct (skip_completed_total _ _ _ _ Hnnv (Z.lt_le_incl _ _ Hr) Hskip)
      as (Hsum & _ & Hnn1 & Hhead).
    pose proof (total_len_nonneg _ Hnn1) as Htot1. simpl in Hsum, Htot1.
    pose proof (Forall_inv Hnn1) as He. pose proof (Forall_inv_tail Hnn1) as Hnn'.
    simpl in He.
    pose proof (total_len_nonneg _ Hnn') as Htot'.
    destruct (ReadAllTrace_head _ _ _ _ _ _ _ Hblock) as (r1 & tl & Hb).
    rewrite <- (app_nil_r block) in Hw. rewrite Hb in Hw.
    destruct (ReadAllTrace_in_order _ _ _ _ _ _ _ Hblock v0 (pre ++ dropped)
                e v' part [])
      as [Hin _]; try lia.
    + rewrite Hv0, Hsplit. now rewrite app_assoc.
    + rewrite Hb. simpl in Hw |- *. now rewrite Z.sub_0_r.
    + rewrite total_len_app in Hin.
      replace (total_len pre + total_len dropped + part + 0) with (rt + r)
        in Hin by lia.
      assumption.
  - (* the retry loop filled the last entry *)
    destruct (skip_completed_split _ _ _ _ Hskip) as (dropped & Hsplit & Hdrop).
    destruct (skip_completed_total _ _ _ _ Hnnv (Z.lt_le_incl _ _ Hr) Hskip)
      as (Hsum & _ & Hnn1 & Hhead).
    pose proof (total_len_nonneg _ Hnn1) as Htot1. simpl in Hsum, Htot1.
    destruct (ReadAllTrace_head _ _ _ _ _ _ _ Hblock) as (r1 & tl & Hb).
    rewrite <- (app_nil_r block) in Hw. rewrite Hb in Hw.
    destruct (ReadAllTrace_in_order _ _ _ _ _ _ _ Hblock v0 (pre ++ dropped)
                e [] part [])
      as [Hin _]; try lia.
    + rewrite Hv0, Hsplit. now rewrite app_assoc.
    + rewrite Hb. simpl in Hw |- *. now rewrite Z.sub_0_r.
    + rewrite total_len_app in Hin.
      replace (total_len pre + total_len dropped + part + 0) with (rt + r)
        in Hin by lia.
      assumption.
  - (* the retry loop filled the entry and the loop goes on *)
    destruct (skip_completed_split _ _ _ _ Hskip) as (dropped & Hsplit & Hdrop).
    destruct (skip_completed_total _ _ _ _ Hnnv (Z.lt_le_incl _ _ Hr) Hskip)
      as (Hsum & _ & Hnn1 & Hhead).
    pose proof (total_len_nonneg _ Hnn1) as Htot1. simpl in Hsum, Htot1.
    pose proof (Forall_inv Hnn1) as He. pose proof (Forall_inv_tail Hnn1) as Hnn'.
    simpl in He.
    pose proof (total_len_nonneg _ Hnn') as Htot'.
    destruct (ReadAllTrace_head _ _ _ _ _ _ _ Hblock) as (r1 & tl & Hb).
    assert (Hw' : within_remaining (Some (iov_len e - part - 0))
                    (block ++ rest)).
    { rewrite Hb in Hw |- *. simpl in Hw |- *. now rewrite Z.sub_0_r. }
    destruct (ReadAllTrace_in_order _ _ _ _ _ _ _ Hblock v0 (pre ++ dropped)
                e v' part rest)
      as [Hin Hres]; try lia; try assumption.
    + rewrite Hv0, Hsplit. now rewrite app_assoc.
    + destruct (Hres n eq_refl) as (Hsumb & Hnlen & Hrest).
      assert (Hfull : n = iov_len e - part) by lia.
      rewrite total_len_app in Hin.
      replace (total_len pre + total_len dropped + part + 0) with (rt + r)
        in Hin by lia.
      apply in_order_app; [assumption|].
      destruct (to_size_t_ssize_small (rt + r) ltac:(lia)) as [E1 _].
      destruct (to_size_t_ssize_small (rt + r + n) ltac:(lia)) as [E2 _].
      rewrite E1, E2 in IH.
      replace (rt + r + sum_results block) with (rt + r + n) by lia.
      apply (IH v0 ((pre ++ dropped) ++ [e]) (Some 0)); try assumption.
      * rewrite Hv0, Hsplit. now rewrite <- !app_assoc.
      * rewrite !total_len_app. simpl. lia.
      * apply Hrest. assumption.
Qed.

(** X4. Exact transfer of [Read] when no completion exceeds what is
    still missing (a vectored read delivers at most the length of its
    list, the retries of an entry at most what is left of the entry).
    For a list of entries of total length [L], a call that returns
    success returns exactly [L], or less than [L] and then the last
    completion of the call was a zero-byte one. *)
Theorem read_is_exact_within_remaining this offset v w n this' w' new :
  ReadFileImpl.Read this offset v w = Ret (Ok n, this') w' ->
  Delivered w new w' ->
  within_remaining None new ->
  Forall (fun e => 0 <= iov_len e) v ->
  total_len v <= SSIZE_MAX ->
  n = total_len v \/
  (0 <= n < total_len v /\ exists pre op, new = pre ++ [(op, 0)]).
Proof.
  unfold ReadFileImpl.Read. intros H Hd Hw Hv Hmax.
  apply bind_Ret in H as (u & w1 & Hdc & H). apply DCHECK_Ret in Hdc as [_ ->].
  destruct (iovcnt v =? 0) eqn:Hz.
  - (* the empty list: nothing is read and nothing was asked *)
    unfold ret in H. injection H as <- _ _. left.
    apply Z.eqb_eq in Hz. unfold iovcnt in Hz.
    destruct v; [reflexivity | simpl in Hz; lia].
  - (* the loop, from the whole list with running total 0 *)
    apply bind_Ret in H as (r & w2 & Hloop & H).
    unfold ret in H. injection H as -> _ <-.
    apply (Read_loop_within _ _ _ _ _ _ _ _ _ None Hloop Hd Hw Hv); lia.
Qed.

(** The run used as example below: three entries of 4 bytes, and an
    engine that delivers at most 3 bytes at a time. *)
Lemma chunks_of_three_run :
  let v := [mk_iovec 1000 4; mk_iovec 2000 4; mk_iovec 3000 4] in
  let this := ReadFileImpl.mk 3 100 in
  let w := example_world [3; 1; 3; 1; 3; 1] in
  let new := [(PrepReadV 3 v 0 0, 3);
              (PrepRead 3 1003 1 3, 1);
              (PrepReadV 3 [mk_iovec 2000 4; mk_iovec 3000 4] 4 0, 3);
              (PrepRead 3 2003 1 7, 1);
              (PrepReadV 3 [mk_iovec 3000 4] 8 0, 3);
              (PrepRead 3 3003 1 11, 1)] in
  let w' := mk_World [] new 0 (fstat_of w) (close_of w) [] (Some IOURING)
              true in
  ReadFileImpl.Read this 0 v w = Ret (Ok 12, this) w' /\
  Delivered w new w' /\
  within_remaining None new /\
  Forall (fun e => 0 <= iov_len e) v /\
  total_len v <= SSIZE_MAX.
Proof.
  intros v this w new w'.
  split; [reflexivity|]. split; [repeat split|].
  split; [simpl; repeat split; lia|].
  split; [repeat constructor; simpl; lia|].
  unfold SSIZE_MAX. simpl. lia.
Defined.

Lemma read_is_exact_within_remaining_witness :
  let v := [mk_iovec 1000 4; mk_iovec 2000 4; mk_iovec 3000 4] in
  12 = total_len v \/
  (0 <= 12 < total_len v /\
   exists pre op,
     [(PrepReadV 3 v 0 0, 3);
      (PrepRead 3 1003 1 3, 1);
      (PrepReadV 3 [mk_iovec 2000 4; mk_iovec 3000 4] 4 0, 3);
      (PrepRead 3 2003 1 7, 1);
      (PrepReadV 3 [mk_iovec 3000 4] 8 0, 3);
      (PrepRead 3 3003 1 11, 1)] = pre ++ [(op, 0)]).
Proof.
  destruct chunks_of_three_run as (H & Hd & Hw & Hnn & Hmax).
  exact (read_is_exact_within_remaining _ _ _ _ _ _ _ _ H Hd Hw Hnn Hmax).
Defined.

(** X5. Bytes land in the order of the list, when no completion exceeds
    what is still missing.  Lay the caller's entries end to end.  In a
    call that returns, the operation submitted after [pos] bytes were
    delivered stores at position [pos] of that layout: a vectored read
    is over exactly the entries from position [pos] on, a retry is at
    the address of position [pos] inside its entry, and what either
    delivers stays inside the list, respectively the entry.  With the
    contiguous file offsets, the byte at file offset [offset + i] lands
    at position [i] of the list. *)
Theorem read_places_bytes_in_order this offset v w res this' w' new :
  ReadFileImpl.Read this offset v w = Ret (res, this') w' ->
  Delivered w new w' ->
  within_remaining None new ->
  Forall (fun e => 0 <= iov_len e) v ->
  total_len v <= SSIZE_MAX ->
  in_order v 0 new.
Proof.
  intros H Hd Hw Hnn Hmax.
  destruct (ReadFileImpl_Read_trace _ _ _ _ _ _ _ _ H Hd)
    as [(_ & -> & _) | [_ Ht]]; [exact I|].
  apply (ReadTrace_in_order _ _ _ _ _ _ Ht v [] None); auto.
Qed.

Lemma read_places_bytes_in_order_witness :
  let v := [mk_iovec 1000 4; mk_iovec 2000 4; mk_iovec 3000 4] in
  in_order v 0
    [(PrepReadV 3 v 0 0, 3);
     (PrepRead 3 1003 1 3, 1);
     (PrepReadV 3 [mk_iovec 2000 4; mk_iovec 3000 4] 4 0, 3);
     (PrepRead 3 2003 1 7, 1);
     (PrepReadV 3 [mk_iovec 3000 4] 8 0, 3);
     (PrepRead 3 3003 1 11, 1)].
Proof.
  destruct chunks_of_three_run as (H & Hd & Hw & Hnn & Hmax).
  exact (read_places_bytes_in_order _ _ _ _ _ _ _ _ H Hd Hw Hnn Hmax).
Defined.

(** ** A completion longer than the request *)

Lemma skip_completed_all v :
  forall read,
    Forall (fun e => 0 <= iov_len e) v ->
    total_len v <= read ->
    skip_completed v read = ([], read - total_len v).
Proof.
  induction v as [|e v IH]; intros read Hnn Hle; simpl in *.
  - f_equal. lia.
  - pose proof (Forall_inv Hnn) as He. pose proof (Forall_inv_tail Hnn) as Hv.
    pose proof (total_len_nonneg _ Hv) as Htot. simpl in He.
    replace (iov_len e <=? read) with true by (symmetry; apply Z.leb_le; lia).
    rewrite IH; [f_equal; lia | assumption | lia].
Qed.

Lemma Read_loop_overlong fuel fd offset v rt w r rest :
  0 <= fd -> v <> [] ->
  Forall (fun e => 0 <= iov_len e) v ->
  completions w = r :: rest ->
  total_len v < r ->
  ReadFileImpl.Read_loop (S fuel) fd offset v rt w =
    if DCHECK_IS_ON w
    then Fatal (completed (PrepReadV fd v (to_off_t (offset + rt)) 0) r w)
    else Undefined.
Proof.
  intros Hfd Hv Hnn Hc Hlong.
  pose proof (total_len_nonneg _ Hnn) as Htot.
  cbn [ReadFileImpl.Read_loop].
  rewrite (bind_of_Ret _ _ _ _ _
             (ReadSomeInternal_next _ _ _ _ _ _ _ Hfd Hv Hc)).
  replace (r <? 0) with false by (symmetry; apply Z.ltb_ge; lia).
  replace (r =? 0) with false by (symmetry; apply Z.eqb_neq; lia).
  rewrite (skip_completed_all v r Hnn ltac:(lia)).
  replace (0 <? r - total_len v) with true by (symmetry; apply Z.ltb_lt; lia).
  unfold bind, DCHECK, completed. cbn [DCHECK_IS_ON].
  change (0 <? iovcnt []) with false. cbn [negb].
  rewrite andb_true_r.
  destruct (DCHECK_IS_ON w); reflexivity.
Qed.

(** X6. [Read] relies on the engine never delivering more than was
    asked.  If the first vectored read completes with more bytes than
    the whole list holds, every entry is passed over and bytes are left:
    a debug build stops at [DCHECK_GT(len, 0u)], any other build reads
    the entry behind the end of the caller's array. *)
Theorem read_of_overlong_completion this offset v w r rest :
  0 <= ReadFileImpl.fd_ this ->
  v <> [] ->
  Forall (fun e => 0 <= iov_len e) v ->
  completions w = r :: rest ->
  total_len v < r ->
  ReadFileImpl.Read this offset v w =
    if DCHECK_IS_ON w
    then Fatal (completed
                  (PrepReadV (ReadFileImpl.fd_ this) v
                     (to_off_t (offset + 0)) 0) r w)
    else Undefined.
Proof.
  intros Hfd Hv Hnn Hc Hlong.
  unfold ReadFileImpl.Read.
  assert (Hd : DCHECK (0 <=? ReadFileImpl.fd_ this) w = Ret tt w).
  { unfold DCHECK. apply Z.leb_le in Hfd. rewrite Hfd.
    now rewrite andb_false_r. }
  rewrite (bind_of_Ret _ _ _ _ _ Hd).
  destruct v as [|e v']; [congruence|].
  change (iovcnt (e :: v') =? 0) with (Z.pos (Pos.of_succ_nat (List.length v')) =? 0).
  cbn [Z.eqb List.length]. unfold bind.
  rewrite (Read_loop_overlong _ _ _ _ _ _ _ _ Hfd Hv Hnn Hc Hlong).
  destruct (DCHECK_IS_ON w); reflexivity.
Qed.

Lemma read_of_overlong_completion_witness :
  let v := [mk_iovec 1000 4; mk_iovec 2000 4] in
  ReadFileImpl.Read (ReadFileImpl.mk 3 100) 0 v (example_world [9])
  = Fatal (completed (PrepReadV 3 v 0 0) 9 (example_world [9])).
Proof.
  intros v.
  apply (read_of_overlong_completion (ReadFileImpl.mk 3 100) 0 v
           (example_world [9]) 9 []).
  - simpl. lia.
  - discriminate.
  - repeat constructor; simpl; lia.
  - reflexivity.
  - simpl. lia.
Defined.

(** ** Preconditions of the positional primitives *)

Lemma ReadSomeInternal_Fatal fd iov offset flags w :
  ReadSomeInternal fd iov offset flags w = Fatal w <-> fd < 0 \/ iov = [].
Proof.
  unfold ReadSomeInternal, bind, CHECK, FiberCall_Get. split.
  - destruct (0 <=? fd) eqn:Hfd; [|intros _; left; now apply Z.leb_gt].
    destruct iov as [|e iov]; [intros _; now right|].
    rewrite (iovcnt_pos (e :: iov)) by discriminate.
    destruct (completions w); [discriminate|].
    destruct (_ <? 0); discriminate.
  - intros [H | ->].
    + apply Z.leb_gt in H. now rewrite H.
    + destruct (0 <=? fd); reflexivity.
Qed.

Lemma WriteSomeInternal_Fatal fd iov offset flags w :
  WriteSomeInternal fd iov offset flags w = Fatal w <-> fd < 0 \/ iov = [].
Proof.
  unfold WriteSomeInternal, bind, CHECK, FiberCall_Get. split.
  - destruct (0 <=? fd) eqn:Hfd; [|intros _; left; now apply Z.leb_gt].
    destruct iov as [|e iov]; [intros _; now right|].
    rewrite (iovcnt_pos (e :: iov)) by discriminate.
    destruct (completions w); [discriminate|].
    destruct (_ <? 0); discriminate.
  - intros [H | ->].
    + apply Z.leb_gt in H. now rewrite H.
    + destruct (0 <=? fd); reflexivity.
Qed.

Lemma WriteFileImpl_WriteSome_Fatal this iov w :
  WriteFileImpl.WriteSome this iov w = Fatal w
  <-> WriteFileImpl.fd_ this < 0 \/ iov = [].
Proof.
  unfold WriteFileImpl.WriteSome.
  rewrite <- (WriteSomeInternal_Fatal (WriteFileImpl.fd_ this) iov
                (WriteFileImpl.offs_ this) 0 w).
  unfold bind.
  destruct (WriteSomeInternal _ iov _ 0 w) as [[n|ec] w1|w1| |w1|];
    split; intros H; try discriminate; injection H as ->; reflexivity.
Qed.

(** X7. The positional primitives end the process exactly when a
    precondition fails.  [ReadSomeInternal] and [WriteSomeInternal],
    and with them [WriteFileImpl::WriteSome], abort without submitting
    anything if and only if the descriptor is negative or the list is
    empty; an empty list is fatal here, where [ReadFileImpl::Read]
    returns 0 for it. *)
Theorem positional_primitives_abort_iff fd iov offset flags w :
  (ReadSomeInternal fd iov offset flags w = Fatal w
     <-> fd < 0 \/ iov = []) /\
  (WriteSomeInternal fd iov offset flags w = Fatal w
     <-> fd < 0 \/ iov = []) /\
  (forall name offs,
     WriteFileImpl.WriteSome (WriteFileImpl.mk name fd offs) iov w = Fatal w
     <-> fd < 0 \/ iov = []).
Proof.
  split; [apply ReadSomeInternal_Fatal|].
  split; [apply WriteSomeInternal_Fatal|].
  intros name offs.
  apply (WriteFileImpl_WriteSome_Fatal (WriteFileImpl.mk name fd offs)).
Qed.

Lemma positional_primitives_abort_iff_witness :
  ReadSomeInternal 3 [] 0 0 (example_world [5]) = Fatal (example_world [5]) /\
  WriteSomeInternal (-1) [mk_iovec 1000 4] 0 0 (example_world [5])
    = Fatal (example_world [5]).
Proof.
  split.
  - apply (proj1 (positional_primitives_abort_iff 3 [] 0 0 (example_world [5]))).
    right. reflexivity.
  - apply (proj1 (proj2 (positional_primitives_abort_iff (-1)
                           [mk_iovec 1000 4] 0 0 (example_world [5])))).
    left. lia.
Defined.

(** ** Use after close *)

Lemma ReadFileImpl_Read_closed sz offset v w :
  v <> [] ->
  ReadFileImpl.Read (ReadFileImpl.mk (-1) sz) offset v w = Fatal w.
Proof.
  intros Hv. unfold ReadFileImpl.Read, bind, DCHECK.
  cbn [ReadFileImpl.fd_]. change (0 <=? -1) with false. cbn [negb].
  rewrite andb_true_r.
  destruct (DCHECK_IS_ON w); [reflexivity|].
  destruct v as [|e v']; [congruence|].
  change (iovcnt (e :: v') =? 0)
    with (Z.pos (Pos.of_succ_nat (List.length v')) =? 0).
  cbn [Z.eqb List.length ReadFileImpl.Read_loop].
  unfold ReadSomeInternal, bind, CHECK. reflexivity.
Qed.

(** X8. Use after close ends the process.  Once [Close] has returned,
    in any later state of the world a [Read] over a non-empty list, a
    [WriteSome], and a [ReadSome] or [WriteSome] of the generic file
    abort on the check of the descriptor without submitting anything;
    so does [WriteSome] on a [WriteFileImpl] that was never opened. *)
Theorem use_after_close_is_fatal :
  (forall this w ec this1 w1 offset v w2,
     ReadFileImpl.Close this w = Ret (ec, this1) w1 ->
     v <> [] ->
     ReadFileImpl.Read this1 offset v w2 = Fatal w2) /\
  (forall this w ec this1 w1 v w2,
     WriteFileImpl.Close this w = Ret (ec, this1) w1 ->
     WriteFileImpl.WriteSome this1 v w2 = Fatal w2) /\
  (forall name v w,
     WriteFileImpl.WriteSome (WriteFileImpl.new name) v w = Fatal w) /\
  (forall this w ec this1 w1 iov offset flags w2,
     LinuxFileImpl.Close this w = Ret (ec, this1) w1 ->
     LinuxFileImpl.ReadSome this1 iov offset flags w2 = Fatal w2 /\
     LinuxFileImpl.WriteSome this1 iov offset flags w2 = Fatal w2).
Proof.
  split; [|split; [|split]].
  - intros this w ec this1 w1 offset v w2 H Hv.
    apply ReadFileImpl_Close_fd in H as [Hfd _].
    destruct this1 as [fd sz]. simpl in Hfd. subst fd.
    now apply ReadFileImpl_Read_closed.
  - intros this w ec this1 w1 v w2 H.
    apply WriteFileImpl_Close_fd in H as [Hfd _].
    apply WriteFileImpl_WriteSome_Fatal. left. lia.
  - intros name v w. apply WriteFileImpl_WriteSome_Fatal. left. simpl. lia.
  - intros this w ec this1 w1 iov offset flags w2 H.
    apply LinuxFileImpl_Close_fd in H.
    unfold LinuxFileImpl.ReadSome, LinuxFileImpl.WriteSome. rewrite H. split.
    + apply ReadSomeInternal_Fatal. left. lia.
    + apply WriteSomeInternal_Fatal. left. lia.
Qed.


Lemma use_after_close_is_fatal_witness :
  let this := ReadFileImpl.mk 3 10 in
  let w := example_world [0] in
  let w2 := example_world [4] in
  ReadFileImpl.Close this w
    = Ret (ec_ok, ReadFileImpl.mk (-1) 10) (completed (PrepClose 3) 0 w) /\
  ReadFileImpl.Read (ReadFileImpl.mk (-1) 10) 0 [mk_iovec 1000 4] w2
    = Fatal w2.
Proof.
  intros this w w2. split; [reflexivity|].
  apply (proj1 use_after_close_is_fatal this w ec_ok
           (ReadFileImpl.mk (-1) 10) (completed (PrepClose 3) 0 w)
           0 [mk_iovec 1000 4] w2); [reflexivity | discriminate].
Defined.

(** ** [Close] and the destructors on an open descriptor *)

(** X9. [Close] on an open descriptor.  For a descriptor [fd > 0] that
    the engine closes with result [r], [Close] of each of the three
    abstractions submits the one operation [PrepClose fd], returns the
    error [-r] if [r < 0] and success otherwise, and in both cases
    leaves the object with the closed sentinel [-1]; the size of the
    read-only file and the cursor of the write file are kept. *)
Theorem close_reports_and_invalidates fd r rest w :
  0 < fd -> completions w = r :: rest ->
  let ec := if r <? 0 then mk_error_code (- r) else ec_ok in
  let w' := completed (PrepClose fd) r w in
  (forall sz,
     ReadFileImpl.Close (ReadFileImpl.mk fd sz) w
       = Ret (ec, ReadFileImpl.mk (-1) sz) w') /\
  (forall name offs,
     WriteFileImpl.Close (WriteFileImpl.mk name fd offs) w
       = Ret (ec, WriteFileImpl.mk name (-1) offs) w') /\
  LinuxFileImpl.Close (LinuxFileImpl.mk fd) w
    = Ret (ec, LinuxFileImpl.mk (-1)) w'.
Proof.
  intros Hfd Hc ec w'.
  pose proof (CloseFile_positive fd w r rest Hfd Hc) as H.
  split; [|split]; intros;
    unfold ReadFileImpl.Close, WriteFileImpl.Close, LinuxFileImpl.Close;
    cbn [ReadFileImpl.fd_ ReadFileImpl.file_size_ WriteFileImpl.fd_
         WriteFileImpl.offs_ WriteFileImpl.create_file_name_
         LinuxFileImpl.fd_];
    now rewrite (bind_of_Ret _ _ _ _ _ H).
Qed.

Lemma close_reports_and_invalidates_witness :
  let w := example_world [-9] in
  WriteFileImpl.Close (WriteFileImpl.mk "f" 4 12) w
    = Ret (mk_error_code 9, WriteFileImpl.mk "f" (-1) 12)
        (completed (PrepClose 4) (-9) w).
Proof.
  intros w.
  apply (proj1 (proj2 (close_reports_and_invalidates 4 (-9) [] w
                         ltac:(lia) eq_refl))).
Defined.

(** X10. The destructors.  On a descriptor [fd > 0] the destructor of
    each abstraction submits [PrepClose fd] and drops the result, also
    a negative one.  After a [Close] that returned, the destructor
    submits nothing: a descriptor is not closed twice. *)
Theorem destructor_closes_once :
  (forall fd r rest w,
     0 < fd -> completions w = r :: rest ->
     let w' := completed (PrepClose fd) r w in
     (forall sz, ReadFileImpl.destroy (ReadFileImpl.mk fd sz) w = Ret tt w') /\
     (forall name offs,
        WriteFileImpl.destroy (WriteFileImpl.mk name fd offs) w = Ret tt w') /\
     LinuxFileImpl.destroy (LinuxFileImpl.mk fd) w = Ret tt w') /\
  (forall this w ec this1 w1 w2,
     ReadFileImpl.Close this w = Ret (ec, this1) w1 ->
     ReadFileImpl.destroy this1 w2 = Ret tt w2) /\
  (forall this w ec this1 w1 w2,
     WriteFileImpl.Close this w = Ret (ec, this1) w1 ->
     WriteFileImpl.destroy this1 w2 = Ret tt w2) /\
  (forall this w ec this1 w1 w2,
     LinuxFileImpl.Close this w = Ret (ec, this1) w1 ->
     LinuxFileImpl.destroy this1 w2 = Ret tt w2).
Proof.
  split; [|split; [|split]].
  - intros fd r rest w Hfd Hc w'.
    pose proof (CloseFile_positive fd w r rest Hfd Hc) as H.
    split; [|split]; intros;
      unfold ReadFileImpl.destroy, WriteFileImpl.destroy,
        LinuxFileImpl.destroy;
      cbn [ReadFileImpl.fd_ WriteFileImpl.fd_ LinuxFileImpl.fd_];
      now rewrite (bind_of_Ret _ _ _ _ _ H).
  - intros this w ec this1 w1 w2 H.
    apply ReadFileImpl_Close_fd in H as [Hfd _].
    unfold ReadFileImpl.destroy. rewrite Hfd.
    now rewrite (bind_of_Ret _ _ _ _ _
                   (CloseFile_not_positive (-1) w2 ltac:(lia))).
  - intros this w ec this1 w1 w2 H.
    apply WriteFileImpl_Close_fd in H as [Hfd _].
    unfold WriteFileImpl.destroy. rewrite Hfd.
    now rewrite (bind_of_Ret _ _ _ _ _
                   (CloseFile_not_positive (-1) w2 ltac:(lia))).
  - intros this w ec this1 w1 w2 H.
    apply LinuxFileImpl_Close_fd in H.
    unfold LinuxFileImpl.destroy. rewrite H.
    now rewrite (bind_of_Ret _ _ _ _ _
                   (CloseFile_not_positive (-1) w2 ltac:(lia))).
Qed.

Lemma destructor_closes_once_witness :
  let w := example_world [-9; 0] in
  let w1 := completed (PrepClose 4) (-9) w in
  LinuxFileImpl.destroy (LinuxFileImpl.mk 4) w = Ret tt w1 /\
  LinuxFileImpl.Close (LinuxFileImpl.mk 4) w
    = Ret (mk_error_code 9, LinuxFileImpl.mk (-1)) w1 /\
  LinuxFileImpl.destroy (LinuxFileImpl.mk (-1)) w1 = Ret tt w1.
Proof.
  intros w w1.
  destruct destructor_closes_once as (Hlive & _ & _ & Hclosed).
  split; [|split].
  - apply (Hlive 4 (-9) [0] w ltac:(lia) eq_refl).
  - reflexivity.
  - apply (Hclosed (LinuxFileImpl.mk 4) w (mk_error_code 9)
             (LinuxFileImpl.mk (-1)) w1).
    reflexivity.
Defined.

(** ** The factories *)

Lemma current_proactor_uring w :
  me w = Some IOURING -> current_proactor w = Ret tt w.
Proof. unfold current_proactor. now intros ->. Qed.

Lemma WriteFileImpl_Open_fresh name flags w r rest :
  completions w = r :: rest ->
  WriteFileImpl.Open (WriteFileImpl.new name) flags w =
    Ret (if r <? 0
         then (mk_error_code (- r), WriteFileImpl.new name)
         else (ec_ok, WriteFileImpl.mk name r 0))
        (completed (PrepOpenAt (-100) name flags 420) r w).
Proof.
  intros Hc. unfold WriteFileImpl.Open, bind, CHECK. cbn.
  rewrite (FiberCall_Get_next _ _ _ _ Hc).
  now destruct (r <? 0).
Qed.

(** X11. [OpenWrite].  On a uring proactor, with [r] the result of the
    open: exactly one operation is submitted, an open of [path]
    relative to the working directory with mode 0644 and the flags
    create, write-only, close-on-exec and, by [append], either append
    or truncate, never both.  For [r < 0] the error [-r] is returned
    and nothing is closed; otherwise a write file on descriptor [r]
    with cursor 0, at the start of its lifetime. *)
Theorem open_write_opens path (append : bool) w r rest :
  me w = Some IOURING ->
  completions w = r :: rest ->
  let flags := Z.lor (Z.lor (Z.lor O_CREAT O_WRONLY) O_CLOEXEC)
                 (if append then O_APPEND else O_TRUNC) in
  OpenWrite path append w =
    Ret (if r <? 0 then Unexpected (mk_error_code (- r))
         else Ok (WriteFileImpl.mk path r 0))
        (completed (PrepOpenAt AT_FDCWD path flags 420) r w) /\
  Z.land flags O_APPEND = (if append then O_APPEND else 0) /\
  Z.land flags O_TRUNC = (if append then 0 else O_TRUNC) /\
  Z.land flags (Z.lor (Z.lor O_CREAT O_WRONLY) O_CLOEXEC)
    = Z.lor (Z.lor O_CREAT O_WRONLY) O_CLOEXEC /\
  (0 <= r -> WriteHistory [] (WriteFileImpl.mk path r 0)).
Proof.
  intros Hme Hc flags. split; [|split; [|split; [|split]]].
  - unfold OpenWrite.
    rewrite (bind_of_Ret _ _ _ _ _ (current_proactor_uring _ Hme)).
    assert (Hflags : (if append
                      then Z.lor (Z.lor (Z.lor O_CREAT O_WRONLY) O_CLOEXEC)
                             O_APPEND
                      else Z.lor (Z.lor (Z.lor O_CREAT O_WRONLY) O_CLOEXEC)
                             O_TRUNC) = flags)
      by (subst flags; now destruct append).
    rewrite Hflags.
    rewrite (bind_of_Ret _ _ _ _ _
               (WriteFileImpl_Open_fresh path flags w r rest Hc)).
    destruct (r <? 0) eqn:Hneg.
    + apply Z.ltb_lt in Hneg.
      unfold ec_bool. cbn [ec_value].
      replace (- r =? 0) with false by (symmetry; apply Z.eqb_neq; lia).
      cbn [negb]. unfold bind, WriteFileImpl.destroy, bind.
      cbn [WriteFileImpl.new WriteFileImpl.fd_].
      rewrite CloseFile_not_positive by lia. reflexivity.
    + reflexivity.
  - subst flags. now destruct append.
  - subst flags. now destruct append.
  - subst flags. now destruct append.
  - intros Hr.
    apply (WH_Open [] (WriteFileImpl.new path) flags w ec_ok _
             (completed (PrepOpenAt (-100) path flags 420) r w)
             (WH_new path)).
    rewrite (WriteFileImpl_Open_fresh path flags w r rest Hc).
    replace (r <? 0) with false by (symmetry; apply Z.ltb_ge; lia).
    reflexivity.
Qed.

Lemma open_write_opens_witness :
  let w := example_world [-13] in
  OpenWrite "f" true w =
    Ret (Unexpected (mk_error_code 13))
        (completed (PrepOpenAt AT_FDCWD "f" 525377 420) (-13) w) /\
  OpenWrite "f" false (example_world [5]) =
    Ret (Ok (WriteFileImpl.mk "f" 5 0))
        (completed (PrepOpenAt AT_FDCWD "f" 524865 420) 5 (example_world [5])).
Proof.
  intros w. split.
  - apply (proj1 (open_write_opens "f" true w (-13) [] eq_refl eq_refl)).
  - apply (proj1 (open_write_opens "f" false (example_world [5]) 5 []
                    eq_refl eq_refl)).
Defined.

Lemma OpenLinux_next path flags mode w r rest :
  me w = Some IOURING ->
  completions w = r :: rest ->
  OpenLinux path flags mode w =
    Ret (if r <? 0 then Unexpected (mk_error_code (- r))
         else Ok (LinuxFileImpl.mk r))
        (completed (PrepOpenAt AT_FDCWD path flags mode) r w).
Proof.
  intros Hme Hc. unfold OpenLinux.
  rewrite (bind_of_Ret _ _ _ _ _ (current_proactor_uring _ Hme)).
  rewrite (bind_of_Ret _ _ _ _ _ (FiberCall_Get_next _ _ _ _ Hc)).
  now destruct (r <? 0).
Qed.


Lemma OpenRead_success_run path w fd a rest st_size :
  me w = Some IOURING ->
  completions w = fd :: a :: rest ->
  0 <= fd -> 0 <= a ->
  fstat_of w fd = inl st_size ->
  OpenRead path w =
    Ret (Ok (ReadFileImpl.mk fd (to_size_t st_size)))
        (mk_World rest
           (submitted w ++
              [(PrepOpenAt AT_FDCWD path (Z.lor O_RDONLY O_CLOEXEC) 0, fd);
               (PrepFadvise fd 0 0 POSIX_FADV_SEQUENTIAL, a)])
           (errno w) (fstat_of w) (close_of w)
           (syscalls w ++ [SysFstat fd]) (me w) (DCHECK_IS_ON w)).
Proof.
  intros Hme Hc Hfd Ha Hstat. unfold OpenRead.
  rewrite (bind_of_Ret _ _ _ _ _ (current_proactor_uring _ Hme)).
  rewrite (bind_of_Ret _ _ _ _ _ (FiberCall_Get_next _ _ _ _ Hc)).
  apply Z.ltb_ge in Hfd. rewrite Hfd.
  unfold bind at 1, sys_fstat, completed. cbn [fstat_of]. rewrite Hstat.
  cbn -[Z.lor bind]. unfold bind, FiberCall_Get.
  cbn [completions]. rewrite Hc. cbn [tl].
  apply Z.ltb_ge in Ha. rewrite Ha. unfold ret. cbn -[Z.lor].
  now rewrite <- app_assoc.
Qed.





Lemma open_write_run path (append : bool) w r rest :
  me w = Some IOURING ->
  completions w = r :: rest ->
  exists flags,
    OpenWrite path append w =
      Ret (if r <? 0 then Unexpected (mk_error_code (- r))
           else Ok (WriteFileImpl.mk path r 0))
          (completed (PrepOpenAt AT_FDCWD path flags 420) r w).
Proof.
  intros Hme Hc. unfold OpenWrite.
  rewrite (bind_of_Ret _ _ _ _ _ (current_proactor_uring _ Hme)).
  eexists.
  rewrite (bind_of_Ret _ _ _ _ _
             (WriteFileImpl_Open_fresh path _ w r rest Hc)).
  destruct (r <? 0) eqn:Hneg.
  - apply Z.ltb_lt in Hneg.
    unfold ec_bool. cbn [ec_value].
    replace (- r =? 0) with false by (symmetry; apply Z.eqb_neq; lia).
    cbn [negb]. unfold bind, WriteFileImpl.destroy, bind.
    cbn [WriteFileImpl.new WriteFileImpl.fd_].
    rewrite CloseFile_not_positive by lia. reflexivity.
  - reflexivity.
Qed.






(** ** The callbacks of [LinuxFile::Write] and [LinuxFile::Read] *)

Lemma Write_cb_Ret this flags offset iov w res offset' w' :
  LinuxFile.Write_cb this flags offset iov w = Ret (res, offset') w' ->
  exists r,
    w' = completed (PrepWriteV (LinuxFileImpl.fd_ this) iov offset flags) r w /\
    match res with
    | Ok b => 0 <= b /\ offset' = to_off_t (offset + b)
    | Unexpected _ => offset' = offset
    end.
Proof.
  unfold LinuxFile.Write_cb, LinuxFileImpl.WriteSome. intros H.
  apply bind_Ret in H as (res0 & w1 & H1 & H).
  apply WriteSomeInternal_Ret in H1 as (r & -> & _ & ->).
  exists r. split.
  - destruct (r <? 0); unfold ret in H; now injection H.
  - destruct (r <? 0) eqn:E; unfold ret in H; injection H as <- <- _.
    + reflexivity.
    + apply Z.ltb_ge in E. auto.
Qed.

Lemma Read_cb_Ret this flags offset iov w res offset' w' :
  LinuxFile.Read_cb this flags offset iov w = Ret (res, offset') w' ->
  exists r,
    w' = completed (PrepReadV (LinuxFileImpl.fd_ this) iov offset flags) r w /\
    match res with
    | Ok b => 0 <= b /\ offset' = to_off_t (offset + b)
    | Unexpected _ => offset' = offset
    end.
Proof.
  unfold LinuxFile.Read_cb, LinuxFileImpl.ReadSome. intros H.
  apply bind_Ret in H as (res0 & w1 & H1 & H).
  apply ReadSomeInternal_Ret in H1 as (r & -> & _ & ->).
  exists r. split.
  - destruct (r <? 0); unfold ret in H; now injection H.
  - destruct (r <? 0) eqn:E; unfold ret in H; injection H as <- <- _.
    + reflexivity.
    + apply Z.ltb_ge in E. auto.
Qed.

(** The offset along the invocations of a callback that advances it by
    what it returns. *)
Lemma CallbackCalls_offset cb offset0 bs offset :
  (forall o iov w res o' w',
     cb o iov w = Ret (res, o') w' ->
     match res with
     | Ok b => 0 <= b /\ o' = to_off_t (o + b)
     | Unexpected _ => o' = o
     end) ->
  CallbackCalls cb offset0 bs offset ->
  Forall (fun b => 0 <= b) bs /\
  offset = to_off_t (to_off_t offset0 + sum_counts bs) \/
  (bs = [] /\ offset = offset0).
Proof.
  intros Hcb. induction 1 as [| bs offset iov w b offset' w' _ IH Hcall
                              | bs offset iov w ec offset' w' _ IH Hcall].
  - right. auto.
  - left. apply Hcb in Hcall as [Hb ->].
    destruct IH as [[Hnn ->] | [-> ->]].
    + split; [apply Forall_app; split; [assumption | repeat constructor;
                                                      assumption]|].
      unfold to_off_t. rewrite to_ssize_t_add_ssize, sum_counts_app.
      simpl. f_equal. lia.
    + split; [repeat constructor; assumption|].
      unfold to_off_t. rewrite to_ssize_t_add_ssize. simpl.
      rewrite Z.add_0_r. reflexivity.
  - apply Hcb in Hcall as ->. assumption.
Qed.

Lemma CallbackCalls_offset_exact cb offset0 bs offset :
  (forall o iov w res o' w',
     cb o iov w = Ret (res, o') w' ->
     match res with
     | Ok b => 0 <= b /\ o' = to_off_t (o + b)
     | Unexpected _ => o' = o
     end) ->
  CallbackCalls cb offset0 bs offset ->
  0 <= offset0 -> offset0 + sum_counts bs <= SSIZE_MAX ->
  offset = offset0 + sum_counts bs.
Proof.
  intros Hcb Hcalls H0 Hmax.
  destruct (CallbackCalls_offset _ _ _ _ Hcb Hcalls) as [[Hnn ->] | [-> ->]].
  - pose proof (sum_counts_nonneg _ Hnn) as Hsum.
    unfold to_off_t. rewrite (to_ssize_t_id offset0) by lia.
    apply to_ssize_t_id. lia.
  - simpl. lia.
Qed.

(** X16. The callbacks that [LinuxFile::Write] and [LinuxFile::Read]
    pass on keep the offset of the transfer.  Started with the caller's
    offset, after any number of invocations whose successful ones
    returned the byte counts [bs] (with a sum that fits [off_t]), the
    next invocation submits its vectored write, respectively read, on
    the file's descriptor with the caller's flags at the caller's
    offset plus the sum of [bs]; an invocation that fails does not
    move the offset. *)
Theorem linux_file_callbacks_keep_the_offset this flags offset0 bs offset :
  0 <= offset0 -> offset0 + sum_counts bs <= SSIZE_MAX ->
  (CallbackCalls (LinuxFile.Write_cb this flags) offset0 bs offset ->
   offset = offset0 + sum_counts bs /\
   forall iov w res offset' w',
     LinuxFile.Write_cb this flags offset iov w = Ret (res, offset') w' ->
     (exists r,
        submitted w' = submitted w ++
          [(PrepWriteV (LinuxFileImpl.fd_ this) iov
              (offset0 + sum_counts bs) flags, r)]) /\
     (forall ec, res = Unexpected ec -> offset' = offset)) /\
  (CallbackCalls (LinuxFile.Read_cb this flags) offset0 bs offset ->
   offset = offset0 + sum_counts bs /\
   forall iov w res offset' w',
     LinuxFile.Read_cb this flags offset iov w = Ret (res, offset') w' ->
     (exists r,
        submitted w' = submitted w ++
          [(PrepReadV (LinuxFileImpl.fd_ this) iov
              (offset0 + sum_counts bs) flags, r)]) /\
     (forall ec, res = Unexpected ec -> offset' = offset)).
Proof.
  intros H0 Hmax. split; intros Hcalls.
  - assert (Hoff : offset = offset0 + sum_counts bs).
    { apply (CallbackCalls_offset_exact (LinuxFile.Write_cb this flags));
        try assumption.
      intros o iov w res o' w' H.
      apply Write_cb_Ret in H as (r & _ & H). exact H. }
    split; [assumption|].
    intros iov w res offset' w' H.
    apply Write_cb_Ret in H as (r & -> & H). split.
    + exists r. rewrite Hoff. reflexivity.
    + intros ec ->. exact H.
  - assert (Hoff : offset = offset0 + sum_counts bs).
    { apply (CallbackCalls_offset_exact (LinuxFile.Read_cb this flags));
        try assumption.
      intros o iov w res o' w' H.
      apply Read_cb_Ret in H as (r & _ & H). exact H. }
    split; [assumption|].
    intros iov w res offset' w' H.
    apply Read_cb_Ret in H as (r & -> & H). split.
    + exists r. rewrite Hoff. reflexivity.
    + intros ec ->. exact H.
Qed.

Lemma linux_file_callbacks_keep_the_offset_witness :
  let this := LinuxFileImpl.mk 4 in
  let buf := [mk_iovec 1000 16] in
  exists offset,
    CallbackCalls (LinuxFile.Write_cb this 0) 100 [5; 7] offset /\
    offset = 112.
Proof.
  intros this buf.
  assert (H1 : CallbackCalls (LinuxFile.Write_cb this 0) 100 [5] 105).
  { apply (CC_ok _ 100 [] 100 buf (example_world [5]) 5 105
             (completed (PrepWriteV 4 buf 100 0) 5 (example_world [5]))
             (CC_none _ 100)).
    reflexivity. }
  assert (H2 : CallbackCalls (LinuxFile.Write_cb this 0) 100 [5] 105).
  { apply (CC_err _ 100 [5] 105 buf (example_world [-28])
             (mk_error_code 28) 105
             (completed (PrepWriteV 4 buf 105 0) (-28) (example_world [-28]))
             H1).
    reflexivity. }
  assert (H3 : CallbackCalls (LinuxFile.Write_cb this 0) 100 [5; 7] 112).
  { apply (CC_ok _ 100 [5] 105 buf (example_world [7]) 7 112
             (completed (PrepWriteV 4 buf 105 0) 7 (example_world [7])) H2).
    reflexivity. }
  exists 112. split; [exact H3|].
  assert (Hfit : 100 + sum_counts [5; 7] <= SSIZE_MAX)
    by (vm_compute; discriminate).
  exact (proj1 (proj1 (linux_file_callbacks_keep_the_offset this 0 100
                         [5; 7] 112 ltac:(lia) Hfit) H3)).
Defined.

(** ** Descriptor 0 *)

(** X17. The factories hand out descriptor 0, and it is never closed.
    Each factory treats an open that completes with 0 as a success and
    returns a file on descriptor 0; [Close] and the destructor of that
    file then submit nothing, in any state of the world, and [Close]
    still reports success and marks the file closed. *)
Theorem descriptor_zero_is_opened_but_never_closed w :
  me w = Some IOURING ->
  (forall path flags mode rest,
     completions w = 0 :: rest ->
     exists w1,
       OpenLinux path flags mode w = Ret (Ok (LinuxFileImpl.mk 0)) w1 /\
       forall w2,
         LinuxFileImpl.Close (LinuxFileImpl.mk 0) w2
           = Ret (ec_ok, LinuxFileImpl.mk (-1)) w2 /\
         LinuxFileImpl.destroy (LinuxFileImpl.mk 0) w2 = Ret tt w2) /\
  (forall path (append : bool) rest,
     completions w = 0 :: rest ->
     exists w1,
       OpenWrite path append w = Ret (Ok (WriteFileImpl.mk path 0 0)) w1 /\
       forall w2,
         WriteFileImpl.Close (WriteFileImpl.mk path 0 0) w2
           = Ret (ec_ok, WriteFileImpl.mk path (-1) 0) w2 /\
         WriteFileImpl.destroy (WriteFileImpl.mk path 0 0) w2 = Ret tt w2) /\
  (forall path a rest st_size,
     completions w = 0 :: a :: rest -> 0 <= a ->
     fstat_of w 0 = inl st_size ->
     exists w1,
       OpenRead path w
         = Ret (Ok (ReadFileImpl.mk 0 (to_size_t st_size))) w1 /\
       forall w2,
         ReadFileImpl.Close (ReadFileImpl.mk 0 (to_size_t st_size)) w2
           = Ret (ec_ok, ReadFileImpl.mk (-1) (to_size_t st_size)) w2 /\
         ReadFileImpl.destroy (ReadFileImpl.mk 0 (to_size_t st_size)) w2
           = Ret tt w2).
Proof.
  intros Hme.
  assert (Hzero : forall w2, CloseFile 0 w2 = Ret ec_ok w2)
    by (intros w2; apply CloseFile_not_positive; lia).
  split; [|split].
  - intros path flags mode rest Hc. eexists. split.
    + apply (OpenLinux_next path flags mode w 0 rest Hme Hc).
    + intros w2. unfold LinuxFileImpl.Close, LinuxFileImpl.destroy.
      cbn [LinuxFileImpl.fd_].
      now rewrite !(bind_of_Ret _ _ _ _ _ (Hzero w2)).
  - intros path append rest Hc.
    destruct (open_write_run path append w 0 rest Hme Hc) as (flags & Hopen).
    eexists. split; [exact Hopen|].
    intros w2. unfold WriteFileImpl.Close, WriteFileImpl.destroy.
    cbn [WriteFileImpl.fd_ WriteFileImpl.offs_
         WriteFileImpl.create_file_name_].
    now rewrite !(bind_of_Ret _ _ _ _ _ (Hzero w2)).
  - intros path a rest st_size Hc Ha Hstat. eexists. split.
    + apply (OpenRead_success_run path w 0 a rest st_size Hme Hc
               ltac:(lia) Ha Hstat).
    + intros w2. unfold ReadFileImpl.Close, ReadFileImpl.destroy.
      cbn [ReadFileImpl.fd_ ReadFileImpl.file_size_].
      now rewrite !(bind_of_Ret _ _ _ _ _ (Hzero w2)).
Qed.

Lemma descriptor_zero_is_opened_but_never_closed_witness :
  exists w1,
    OpenLinux "f" 0 0 (example_world [0; 5])
      = Ret (Ok (LinuxFileImpl.mk 0)) w1 /\
    forall w2,
      LinuxFileImpl.Close (LinuxFileImpl.mk 0) w2
        = Ret (ec_ok, LinuxFileImpl.mk (-1)) w2 /\
      LinuxFileImpl.destroy (LinuxFileImpl.mk 0) w2 = Ret tt w2.
Proof.
  apply (proj1 (descriptor_zero_is_opened_but_never_closed
                  (example_world [0; 5]) eq_refl) "f"%string 0 0 [5]).
  reflexivity.
Defined.

(** ** What [Read] submits *)

Lemma ReadAllTrace_own fd len offset next rt block res :
  ReadAllTrace fd len offset next rt block res ->
  forall next0,
    next0 <= next ->
    Forall (fun x => match fst x with
                     | PrepRead fd' buf len' _ =>
                         fd' = fd /\ len' = len /\ next0 <= buf
                     | _ => False
                     end) block.
Proof.
  induction 1 as [offset next rt r Hr | offset next rt
                 | offset next rt r Hr Heq
                 | offset next rt r rest res Hr Hne _ IH];
    intros next0 Hnext; constructor;
    try (cbn [fst]; now repeat split); try constructor.
  apply IH. lia.
Qed.

Lemma own_read_block fd v e part block :
  In e v -> 0 < part ->
  Forall (fun x => match fst x with
                   | PrepRead fd' buf len' _ =>
                       fd' = fd /\ len' = iov_len e - part /\
                       iov_base e + part <= buf
                   | _ => False
                   end) block ->
  Forall (own_read fd v) block.
Proof.
  intros Hin Hpart H. eapply Forall_impl; [|exact H].
  intros [op r]. unfold own_read. cbn [fst].
  destruct op; try tauto.
  intros (-> & -> & Hbuf). split; [reflexivity|].
  exists e, part. auto.
Qed.

Lemma ReadTrace_own fd offset v rt new res :
  ReadTrace fd offset v rt new res ->
  forall v0 pre, v0 = pre ++ v -> Forall (own_read fd v0) new.
Proof.
  induction 1 as [v rt r Hv Hr | v rt Hv | v rt r part Hv Hr Hskip Hpart
                 | v rt r v1 part rest res Hv Hr Hskip Hpart Hv1 _ IH
                 | v rt r e v' part block ec Hv Hr Hskip Hpart Hblock
                 | v rt r e v' part block n Hv Hr Hskip Hpart Hblock Hn
                 | v rt r e part block n Hv Hr Hskip Hpart Hblock Hn
                 | v rt r e v' part block n rest res Hv Hr Hskip Hpart
                     Hblock Hn Hv' _ IH];
    intros v0 pre Hv0;
    (constructor;
     [unfold own_read; cbn [fst]; repeat split; try assumption;
      now exists pre|]);
    try constructor;
    destruct (skip_completed_split _ _ _ _ Hskip) as (dropped & Hsplit & _);
    try (pose proof (ReadAllTrace_own _ _ _ _ _ _ _ Hblock
                       (iov_base e + part) ltac:(lia)) as Hown;
         assert (Hin : In e v0)
           by (rewrite Hv0, Hsplit; apply in_or_app; right;
               apply in_or_app; right; now left);
         pose proof (own_read_block fd v0 e part block Hin Hpart Hown)
           as Hb).
  - apply (IH v0 (pre ++ dropped)). rewrite Hv0, Hsplit.
    now rewrite app_assoc.
  - assumption.
  - assumption.
  - assumption.
  - apply Forall_app. split; [assumption|].
    apply (IH v0 ((pre ++ dropped) ++ [e])). rewrite Hv0, Hsplit.
    now rewrite <- !app_assoc.
Qed.

(** X18. [Read] only reads, and only for its own list.  In a call that
    returns, every operation submitted is on the file's descriptor and
    is either a vectored read without flags over a non-empty rest of
    the caller's list, or a plain read that finishes an entry of the
    list: it asks for what follows the first [part > 0] bytes of the
    entry and starts at or behind that position.  Nothing is written,
    opened or closed. *)
Theorem read_submits_only_its_own_reads this offset v w res this' w' new :
  ReadFileImpl.Read this offset v w = Ret (res, this') w' ->
  Delivered w new w' ->
  Forall (own_read (ReadFileImpl.fd_ this) v) new.
Proof.
  intros H Hd.
  destruct (ReadFileImpl_Read_trace _ _ _ _ _ _ _ _ H Hd)
    as [(_ & -> & _) | [_ Ht]]; [constructor|].
  apply (ReadTrace_own _ _ _ _ _ _ Ht v []). reflexivity.
Qed.

Lemma read_submits_only_its_own_reads_witness :
  let v := [mk_iovec 1000 4; mk_iovec 2000 4; mk_iovec 3000 4] in
  Forall (own_read 3 v)
    [(PrepReadV 3 v 0 0, 3);
     (PrepRead 3 1003 1 3, 1);
     (PrepReadV 3 [mk_iovec 2000 4; mk_iovec 3000 4] 4 0, 3);
     (PrepRead 3 2003 1 7, 1);
     (PrepReadV 3 [mk_iovec 3000 4] 8 0, 3);
     (PrepRead 3 3003 1 11, 1)].
Proof.
  destruct chunks_of_three_run as (H & Hd & _).
  exact (read_submits_only_its_own_reads _ _ _ _ _ _ _ _ H Hd).
Defined.
